(** * Qwinto (open_spiel/games/qwinto.{h,cc}): a shallow embedding

    The state of a game is the record [QwintoState]; the member functions of
    the C++ class are functions on it.  A call that ends in [SpielFatalError]
    (directly or through a failed [SPIEL_CHECK_*]) returns [Fatal]; a call
    whose behaviour C++ leaves undefined (a write outside [scores_], signed
    overflow) returns [Undefined].

    Integers ([int], [Action], [Player]) are [Z].  The values that the
    source stores in a [double] ([Returns], [ObservationTensor]) are all
    small integers and are kept as [Z]; the probabilities of
    [ChanceOutcomes], written [c/216.] in the source, are binary64 numbers
    ([double], the [spec_float] of the Standard Library with its rounding
    division). *)

From Stdlib Require Import ZArith QArith Qabs Lia SpecFloat.
From stdpp Require Import base list numbers sorting relations strings pretty.

Local Open Scope Z_scope.

(** ** Results of fallible calls *)

Inductive result (A : Type) : Type :=
| Ok (a : A)
| Fatal
| Undefined.

Arguments Ok {A} a.
Arguments Fatal {A}.
Arguments Undefined {A}.

Definition rbind {A B : Type} (c : result A) (k : A -> result B) : result B :=
  match c with
  | Ok a => k a
  | Fatal => Fatal
  | Undefined => Undefined
  end.

Notation "x <- c ;; k" := (rbind c (fun x => k))
  (at level 100, c at next level, right associativity).
Notation "c ;;; k" := (rbind c (fun _ => k))
  (at level 100, right associativity).

(** [SPIEL_CHECK_*]: abort unless the condition holds. *)
Definition SPIEL_CHECK (b : bool) : result unit :=
  if b then Ok tt else Fatal.

(** ** Constants of qwinto.h and qwinto.cc *)

Definition kInvalidDie : Z := 0.
Definition kOrange : Z := 1.
Definition kPurple : Z := 2.
Definition kYellow : Z := 4.

Inductive Phase : Type := kSelectDice | kRollDice | kSubmitPoints.

Definition Phase_eqb (a b : Phase) : bool :=
  match a, b with
  | kSelectDice, kSelectDice | kRollDice, kRollDice
  | kSubmitPoints, kSubmitPoints => true
  | _, _ => false
  end.

Definition kDefaultNumDice : Z := 3.
Definition kDefaultNumFields : Z := 9.
Definition kDefaultMissPoints : Z := -5.
Definition kDefaultTerminationPoints : Z := -20.

(** [kDefaultNumDice * kDefaultNumFields + 1]: the cells of one player. *)
Definition kBoardSize : Z := kDefaultNumDice * kDefaultNumFields + 1.

(** Modelled from the spec: the declaration of [kActionMiss] is not in
    qwinto.h.  The "miss" action adds the penalty to the player's miss
    slot, which is cell [kDefaultNumDice * kDefaultNumFields] of the board,
    and [DoApplyActions] writes at offset [actions[p]]. *)
Definition kActionMiss : Z := kDefaultNumDice * kDefaultNumFields.

(** Modelled from the spec: the player sentinels of the host framework,
    distinct from the real player indices [0..N-1] (the framework's values). *)
Definition kChancePlayerId : Z := -1.
Definition kSimultaneousPlayerId : Z := -2.
Definition kTerminalPlayerId : Z := -4.

Definition INT_MIN : Z := - 2 ^ 31.
Definition INT_MAX : Z := 2 ^ 31 - 1.

(** Conversion of an [Action] (64 bits) to [int]: reduction modulo [2^32]
    into the signed range. *)
Definition to_int (a : Z) : Z := (a + 2 ^ 31) mod 2 ^ 32 - 2 ^ 31.

(** ** Vectors indexed by [Z] *)

(** A read [v[i]]; every read of the source is at an index fixed by the
    state alone and lies inside [scores_] (see [Inv_length]). *)
Definition vget (v : list Z) (i : Z) : Z := v !!! Z.to_nat i.

(** A write [v[i] = x]; outside the vector the behaviour is undefined. *)
Definition vset (v : list Z) (i x : Z) : result (list Z) :=
  if (0 <=? i) && (i <? Z.of_nat (length v))
  then Ok (<[Z.to_nat i := x]> v)
  else Undefined.

(** [v[i] += d] on [int]s. *)
Definition vadd (v : list Z) (i d : Z) : result (list Z) :=
  if (0 <=? i) && (i <? Z.of_nat (length v)) then
    let x := vget v i + d in
    if (INT_MIN <=? x) && (x <=? INT_MAX) then Ok (<[Z.to_nat i := x]> v)
    else Undefined
  else Undefined.

Definition b2z (b : bool) : Z := if b then 1 else 0.

(** ** The state *)

Record QwintoState : Type := mkState {
  num_players_ : Z;
  player_ : Z;
  current_player_ : Z;
  num_dice_rolls_ : Z;
  dice_ : Z;
  dice_outcome_ : Z;
  phase_ : Phase;
  scores_ : list Z
}.

(** [QwintoGame::NewInitialState] with [QwintoState::QwintoState]. *)
Definition NewInitialState (num_players : Z) : QwintoState :=
  {| num_players_ := num_players;
     player_ := 0;
     current_player_ := 0;
     num_dice_rolls_ := 0;
     dice_ := kInvalidDie;
     dice_outcome_ := 0;
     phase_ := kSelectDice;
     scores_ := replicate (Z.to_nat (num_players * kBoardSize)) 0 |}.

(** [QwintoState::IsTerminal]. *)
Definition IsTerminal (s : QwintoState) : bool :=
  existsb
    (fun p => vget (scores_ s) ((p + 1) * kBoardSize - 1) <=? kDefaultTerminationPoints)
    (seqZ 0 (num_players_ s)).

(** [QwintoState::CurrentPlayer]. *)
Definition CurrentPlayer (s : QwintoState) : Z :=
  if IsTerminal s then kTerminalPlayerId else player_ s.

(** [State::IsChanceNode] and [State::IsSimultaneousNode]. *)
Definition IsChanceNode (s : QwintoState) : bool :=
  CurrentPlayer s =? kChancePlayerId.

Definition IsSimultaneousNode (s : QwintoState) : bool :=
  CurrentPlayer s =? kSimultaneousPlayerId.

(** The number of selected dice, as [ChanceOutcomes] computes it. *)
Definition num_dice (s : QwintoState) : Z :=
  b2z (negb (Z.land (dice_ s) kOrange =? kInvalidDie))
  + b2z (negb (Z.land (dice_ s) kYellow =? kInvalidDie))
  + b2z (negb (Z.land (dice_ s) kPurple =? kInvalidDie)).

(** A [double] is a binary64 number of IEEE 754: 53 bits of precision,
    exponents below 1024. *)
Definition double : Type := spec_float.

(** The conversion of an [int] to [double]. *)
Definition double_of_int (c : Z) : double := binary_normalize 53 1024 c 0 false.

(** The quotient [c/d.] of the source: the [int] [c] is converted to
    [double] and divided by the [double] [d.]; the division rounds to the
    nearest [double], ties to even. *)
Definition quotient (c d : Z) : double :=
  SFdiv 53 1024 (double_of_int c) (double_of_int d).

Arguments quotient : simpl never.

Notation "c /. d" := (quotient c d) (at level 35, no associativity).

(** [QwintoState::ChanceOutcomes]. *)
Definition ChanceOutcomes (s : QwintoState) : result (list (Z * double)) :=
  SPIEL_CHECK (IsChanceNode s) ;;;
  SPIEL_CHECK (1 <=? num_dice s) ;;;
  SPIEL_CHECK (num_dice s <=? kDefaultNumDice) ;;;
  Ok (if num_dice s =? 1 then
        [(1, 1 /. 6); (2, 1 /. 6); (3, 1 /. 6); (4, 1 /. 6); (5, 1 /. 6); (6, 1 /. 6)]
      else if num_dice s =? 2 then
        [(2, 1 /. 36); (3, 2 /. 36); (4, 3 /. 36); (5, 4 /. 36); (6, 5 /. 36); (7, 6 /. 36);
         (8, 5 /. 36); (9, 4 /. 36); (10, 3 /. 36); (11, 2 /. 36); (12, 1 /. 36)]
      else if num_dice s =? 3 then
        [(3, 1 /. 216); (4, 3 /. 216); (5, 6 /. 216); (6, 10 /. 216); (7, 15 /. 216);
         (8, 21 /. 216); (9, 25 /. 216); (10, 27 /. 216); (11, 27 /. 216); (12, 25 /. 216);
         (13, 21 /. 216); (14, 15 /. 216); (15, 10 /. 216); (16, 6 /. 216); (17, 3 /. 216);
         (18, 1 /. 216)]
      else []).

(** Modelled from the spec: [State::LegalChanceOutcomes] of the host
    framework, the action ids of [ChanceOutcomes] in their order. *)
Definition LegalChanceOutcomes (s : QwintoState) : result (list Z) :=
  outs <- ChanceOutcomes s ;; Ok (map fst outs).

(** The color of the row of cell [i] (the inner [switch] of
    [LegalActions]). *)
Definition row_die (r : Z) : Z :=
  if r =? 0 then kOrange
  else if r =? 1 then kYellow
  else if r =? 2 then kPurple
  else kInvalidDie.

(** The lambda [is_valid_column] of [LegalActions]; [scores] is the
    player's board and [outcome] is [dice_outcome_]. *)
Definition is_valid_column (scores : Z -> Z) (outcome c : Z) : bool :=
  if (c =? 8) || (c =? 18) then true
  else if c =? 13 then negb (scores 22 =? outcome)
  else if c =? 22 then negb (scores 13 =? outcome)
  else if (c =? 9) || (c =? 19) || (c =? 2) || (c =? 12) || (c =? 7) || (c =? 17) then
    negb (scores c =? outcome) && negb (scores (Z.rem (c + 10) 20) =? outcome)
  else if (c =? 3) || (c =? 23) then
    negb (scores c =? outcome) && negb (scores (Z.rem (c + 20) 40) =? outcome)
  else
    negb (scores c =? outcome) && negb (scores (Z.rem (c + 10) 30) =? outcome)
    && negb (scores (Z.rem (c + 20) 30) =? outcome).

(** The board of [player] seen through the iterator
    [scores_.begin() + player * 28]. *)
Definition board_at (s : QwintoState) (player : Z) (i : Z) : Z :=
  vget (scores_ s) (player * kBoardSize + i).

(** One round of the [for] loop of the [kSubmitPoints] case: is cell [i]
    pushed on the move list? *)
Definition field_is_open (s : QwintoState) (player i : Z) : bool :=
  let scores := board_at s player in
  let die := row_die (Z.quot i kDefaultNumFields) in
  let row := Z.quot i kDefaultNumFields * kDefaultNumFields in
  let offset := Z.rem i kDefaultNumFields in
  negb (Z.land (dice_ s) die =? kInvalidDie)
  && (scores i =? 0)
  && negb (negb (forallb (fun k => scores k <? dice_outcome_ s) (seqZ row offset))
           || negb (forallb (fun k => (scores k =? 0) || (dice_outcome_ s <? scores k))
                      (seqZ (row + offset + 1) (kDefaultNumFields - (offset + 1)))))
  && is_valid_column scores (dice_outcome_ s) i.

(** ** The game and the strings *)

(** [QwintoGame::NumDistinctActions] of qwinto.h, [MaxChanceOutcomes],
    [MinUtility] and [MaxUtility]. *)
Definition NumDistinctActions : Z := kDefaultNumDice * kDefaultNumFields + 1.
Definition MaxChanceOutcomes : Z := 16.
Definition MinUtility : Z := kDefaultTerminationPoints.
Definition MaxUtility : Z := 3 * 18 + 12 + 11 + 14 + 16 + 18.

(** [QwintoGame::MaxGameLength] of qwinto.h. *)
Definition MaxGameLength : Z := 3 * 31.

(** [phase2str]. *)
Definition phase2str (phase : Phase) : string :=
  match phase with
  | kSelectDice => "Select"
  | kRollDice => "Roll"
  | kSubmitPoints => "Submit"
  end.

(** [dice2str]. *)
Definition dice2str (dice : Z) : string :=
  (if negb (Z.land dice kOrange =? 0) then "Orange, " else "")
  +:+ (if negb (Z.land dice kYellow =? 0) then "Yellow, " else "")
  +:+ (if negb (Z.land dice kPurple =? 0) then "Purple" else "").

(** [QwintoState::ActionToString]; [absl::StrCat] writes an integer in
    decimal.  [FlatJointActionToString] is the helper of [SimMoveState]. *)
Definition ActionToString (FlatJointActionToString : QwintoState -> Z -> string)
    (s : QwintoState) (player action_id : Z) : result string :=
  if player =? kSimultaneousPlayerId then Ok (FlatJointActionToString s action_id)
  else if player =? kChancePlayerId then
    SPIEL_CHECK (1 <=? action_id) ;;;
    SPIEL_CHECK (action_id <=? 18) ;;;
    Ok ("Dice outcome " +:+ pretty action_id)
  else
    match phase_ s with
    | kSelectDice =>
        Ok ("[P" +:+ pretty player +:+ "] Dice: " +:+ pretty action_id)
    | kRollDice =>
        Ok ("[P" +:+ pretty player +:+ "] Take outcome: " +:+ pretty action_id)
    | kSubmitPoints =>
        Ok ("[P" +:+ pretty player +:+ "] Field: " +:+ pretty action_id)
    end.

Section Qwinto.

Set Default Proof Using "Type".

(** The declarations of these are not in qwinto.h: the "skip" action, the
    limit on the number of rolls, and two helpers of [SimMoveState]. *)
Variable kActionSkip : Z.
Variable kDefaultNumDiceRolls : Z.
Variable LegalFlatJointActions : QwintoState -> result (list Z).
Variable FlatJointActionToActions : QwintoState -> Z -> list Z.

(** The [switch] of [LegalActions]: the move list before it is sorted. *)
Definition movelist (s : QwintoState) (player : Z) : list Z :=
  match phase_ s with
  | kSelectDice =>
      [kOrange; kPurple; kYellow; Z.lor kOrange kPurple;
       Z.lor kOrange kYellow; Z.lor kPurple kYellow;
       Z.lor (Z.lor kOrange kPurple) kYellow]
  | kRollDice =>
      (if num_dice_rolls_ s <? kDefaultNumDiceRolls then [0] else [])
      ++ [1]
  | kSubmitPoints =>
      filter (fun i => field_is_open s player i = true)
        (seqZ 0 (kDefaultNumDice * kDefaultNumFields))
      ++ [if player =? current_player_ s then kActionMiss else kActionSkip]
  end.

(** [QwintoState::LegalActions]. *)
Definition LegalActions (s : QwintoState) (player : Z) : result (list Z) :=
  if player =? kSimultaneousPlayerId then LegalFlatJointActions s
  else if player =? kChancePlayerId then LegalChanceOutcomes s
  else if player =? kTerminalPlayerId then Ok []
  else
    SPIEL_CHECK (0 <=? player) ;;;
    SPIEL_CHECK (player <? num_players_ s) ;;;
    if IsTerminal s then Ok []
    else Ok (merge_sort Z.le (movelist s player)).

(** The [for] loop of [DoApplyActions], from player [p] on. *)
Fixpoint apply_actions (cur outcome : Z) (p : Z) (actions : list Z)
    (scores : list Z) : result (list Z) :=
  match actions with
  | [] => Ok scores
  | a :: rest =>
      if a =? kActionSkip then
        SPIEL_CHECK (negb (p =? cur)) ;;;
        apply_actions cur outcome (p + 1) rest scores
      else if a =? kActionMiss then
        SPIEL_CHECK (p =? cur) ;;;
        scores' <- vadd scores (p * kBoardSize + a) kDefaultMissPoints ;;
        apply_actions cur outcome (p + 1) rest scores'
      else
        scores' <- vset scores (p * kBoardSize + a) outcome ;;
        apply_actions cur outcome (p + 1) rest scores'
  end.

(** [QwintoState::DoApplyActions]. *)
Definition DoApplyActions (s : QwintoState) (actions : list Z) : result QwintoState :=
  SPIEL_CHECK (Z.of_nat (length actions) =? num_players_ s) ;;;
  SPIEL_CHECK (Phase_eqb (phase_ s) kSubmitPoints) ;;;
  scores' <- apply_actions (current_player_ s) (dice_outcome_ s) 0 actions (scores_ s) ;;
  let next := Z.rem (current_player_ s + 1) (num_players_ s) in
  Ok {| num_players_ := num_players_ s;
        player_ := next;
        current_player_ := next;
        num_dice_rolls_ := num_dice_rolls_ s;
        dice_ := dice_ s;
        dice_outcome_ := dice_outcome_ s;
        phase_ := kSelectDice;
        scores_ := scores' |}.

(** [QwintoState::DoApplyAction].  The cast [static_cast<Die>(action)] is
    defined for the values of [Die], which are 0 to 7. *)
Definition DoApplyAction (s : QwintoState) (action : Z) : result QwintoState :=
  if IsSimultaneousNode s then
    DoApplyActions s (FlatJointActionToActions s action)
  else if IsChanceNode s then
    SPIEL_CHECK (Phase_eqb (phase_ s) kRollDice) ;;;
    Ok {| num_players_ := num_players_ s;
          player_ := current_player_ s;
          current_player_ := current_player_ s;
          num_dice_rolls_ := num_dice_rolls_ s;
          dice_ := dice_ s;
          dice_outcome_ := to_int action;
          phase_ := phase_ s;
          scores_ := scores_ s |}
  else
    SPIEL_CHECK (0 <=? player_ s) ;;;
    SPIEL_CHECK (player_ s <? num_players_ s) ;;;
    match phase_ s with
    | kSelectDice =>
        if (0 <=? action) && (action <=? 7) then
          Ok {| num_players_ := num_players_ s;
                player_ := kChancePlayerId;
                current_player_ := current_player_ s;
                num_dice_rolls_ := 1;
                dice_ := action;
                dice_outcome_ := dice_outcome_ s;
                phase_ := kRollDice;
                scores_ := scores_ s |}
        else Undefined
    | kRollDice =>
        if action =? 0 then
          SPIEL_CHECK (num_dice_rolls_ s <? kDefaultNumDiceRolls) ;;;
          Ok {| num_players_ := num_players_ s;
                player_ := kChancePlayerId;
                current_player_ := current_player_ s;
                num_dice_rolls_ := num_dice_rolls_ s + 1;
                dice_ := dice_ s;
                dice_outcome_ := dice_outcome_ s;
                phase_ := phase_ s;
                scores_ := scores_ s |}
        else
          Ok {| num_players_ := num_players_ s;
                player_ := kSimultaneousPlayerId;
                current_player_ := current_player_ s;
                num_dice_rolls_ := num_dice_rolls_ s;
                dice_ := dice_ s;
                dice_outcome_ := dice_outcome_ s;
                phase_ := kSubmitPoints;
                scores_ := scores_ s |}
    | kSubmitPoints => Fatal
    end.

(** One of the three row blocks of [Returns]; [scores] points at the first
    field of the row. *)
Definition row_return (scores : Z -> Z) : Z :=
  let count :=
    Z.of_nat (length (filter (fun a => 0 < a) (map scores (seqZ 0 kDefaultNumFields)))) in
  if count =? kDefaultNumFields then scores (kDefaultNumFields - 1) else count.

(** The body of the loop of [Returns] for player [p]. *)
Definition player_return (s : QwintoState) (p : Z) : Z :=
  let scores := board_at s p in
  row_return scores
  + row_return (fun k => scores (kDefaultNumFields + k))
  + row_return (fun k => scores (kDefaultNumFields + kDefaultNumFields + k))
  + (if (0 <? scores 0) && (0 <? scores 10) && (0 <? scores 20) then scores 20 else 0)
  + (if (0 <? scores 1) && (0 <? scores 11) && (0 <? scores 21) then scores 1 else 0)
  + (if (0 <? scores 4) && (0 <? scores 14) && (0 <? scores 24) then scores 4 else 0)
  + (if (0 <? scores 5) && (0 <? scores 15) && (0 <? scores 25) then scores 15 else 0)
  + (if (0 <? scores 6) && (0 <? scores 16) && (0 <? scores 26) then scores 26 else 0)
  + scores (kDefaultNumDice * kDefaultNumFields).

(** [QwintoState::Returns]. *)
Definition Returns (s : QwintoState) : list Z :=
  if negb (IsTerminal s) then replicate (Z.to_nat (num_players_ s)) 0
  else map (player_return s) (seqZ 0 (num_players_ s)).

(** [QwintoGame::ObservationTensorShape]. *)
Definition ObservationTensorShape (num_players : Z) : list Z :=
  [3 + kDefaultNumDiceRolls + kDefaultNumDice + 18 + num_players
   + num_players * (kDefaultNumDice * kDefaultNumFields + 1)].

(** Modelled from the spec: [Game::ObservationTensorSize] of the host
    framework, the number of values of the declared shape. *)
Definition ObservationTensorSize (num_players : Z) : Z :=
  foldr Z.mul 1 (ObservationTensorShape num_players).

(** The values pushed by [ObservationTensor], before the final check. *)
Definition observation_values (s : QwintoState) : list Z :=
  [b2z (Phase_eqb (phase_ s) kSelectDice);
   b2z (Phase_eqb (phase_ s) kRollDice);
   b2z (Phase_eqb (phase_ s) kSubmitPoints)]
  ++ map (fun i => b2z (i =? num_dice_rolls_ s)) (seqZ 0 kDefaultNumDiceRolls)
  ++ [Z.land (dice_ s) kOrange; Z.land (dice_ s) kYellow; Z.land (dice_ s) kPurple]
  ++ map (fun i => b2z (i =? dice_outcome_ s)) (seqZ 1 18)
  ++ map (fun p => b2z (p =? current_player_ s)) (seqZ 0 (num_players_ s))
  ++ scores_ s.

(** [QwintoState::ObservationTensor]. *)
Definition ObservationTensor (s : QwintoState) (player : Z) : result (list Z) :=
  SPIEL_CHECK (0 <=? player) ;;;
  SPIEL_CHECK (player <? num_players_ s) ;;;
  let values := observation_values s in
  SPIEL_CHECK (Z.of_nat (length values) =? ObservationTensorSize (num_players_ s)) ;;;
  Ok values.

(** ** Play *)

(** [a] is one of the actions that [LegalActions] returns for [player]. *)
Definition legal_action (s : QwintoState) (player a : Z) : Prop :=
  exists l, LegalActions s player = Ok l /\ a ∈ l.

(** One move of the game: at a decision or chance node the player to move
    applies one of its legal actions; at a simultaneous node every player
    submits one of its legal actions and the joint action is applied (the
    framework decodes a flat joint action into such a list of actions). *)
Inductive Step (s : QwintoState) : QwintoState -> Prop :=
| step_single a s' :
    CurrentPlayer s <> kSimultaneousPlayerId ->
    legal_action s (CurrentPlayer s) a ->
    DoApplyAction s a = Ok s' ->
    Step s s'
| step_joint actions s' :
    IsSimultaneousNode s = true ->
    Z.of_nat (length actions) = num_players_ s ->
    (forall (p : nat) a, actions !! p = Some a -> legal_action s (Z.of_nat p) a) ->
    DoApplyActions s actions = Ok s' ->
    Step s s'.

(** The states of a game of [n] players. *)
Definition reachable (n : Z) (s : QwintoState) : Prop :=
  1 <= n /\ rtc Step (NewInitialState n) s.

(** An executable form of [Step], for concrete games. *)
Inductive move : Type :=
| Single (a : Z)
| Joint (actions : list Z).

Definition legal_actionb (s : QwintoState) (player a : Z) : bool :=
  match LegalActions s player with
  | Ok l => bool_decide (a ∈ l)
  | _ => false
  end.

Fixpoint all_legal (s : QwintoState) (p : Z) (actions : list Z) : bool :=
  match actions with
  | [] => true
  | a :: rest => legal_actionb s p a && all_legal s (p + 1) rest
  end.

Definition play1 (s : QwintoState) (m : move) : result QwintoState :=
  match m with
  | Single a =>
      SPIEL_CHECK (negb (CurrentPlayer s =? kSimultaneousPlayerId)) ;;;
      SPIEL_CHECK (legal_actionb s (CurrentPlayer s) a) ;;;
      DoApplyAction s a
  | Joint actions =>
      SPIEL_CHECK (IsSimultaneousNode s) ;;;
      SPIEL_CHECK (Z.of_nat (length actions) =? num_players_ s) ;;;
      SPIEL_CHECK (all_legal s 0 actions) ;;;
      DoApplyActions s actions
  end.

Fixpoint play (s : QwintoState) (ms : list move) : result QwintoState :=
  match ms with
  | [] => Ok s
  | m :: ms' => s' <- play1 s m ;; play s' ms'
  end.

(** An application of actions that need not be legal: any single action
    at a node that is not simultaneous, or any joint action made of "skip",
    "miss" and fields of the board. *)
Inductive Applied (s : QwintoState) : QwintoState -> Prop :=
| applied_single a s' :
    IsSimultaneousNode s = false ->
    DoApplyAction s a = Ok s' ->
    Applied s s'
| applied_joint actions s' :
    (forall a, a ∈ actions -> a <> kActionSkip -> 0 <= a < kBoardSize) ->
    DoApplyActions s actions = Ok s' ->
    Applied s s'.

(** The checks of the loop of [DoApplyActions], from player [p] on: "skip"
    is not for the current player, and "miss" is for nobody else. *)
Fixpoint sentinels_ok (cur p : Z) (actions : list Z) : bool :=
  match actions with
  | [] => true
  | a :: rest =>
      (if a =? kActionSkip then negb (p =? cur)
       else if a =? kActionMiss then p =? cur
       else true)
      && sentinels_ok cur (p + 1) rest
  end.

(** ** The properties of the specification *)

(** The fields of row [r] of player [p], left to right, and the values
    written so far. *)
Definition row_values (s : QwintoState) (p r : Z) : list Z :=
  map (board_at s p) (seqZ (r * kDefaultNumFields) kDefaultNumFields).

Definition nonzero_values (l : list Z) : list Z :=
  filter (fun v => v <> 0) l.

(** The pairing table: the cells whose value the cell [c] must differ from. *)
Definition paired_cells (c : Z) : list Z :=
  if bool_decide (c ∈ [8; 18]) then []
  else if bool_decide (c = 13) then [22]
  else if bool_decide (c = 22) then [13]
  else if bool_decide (c ∈ [9; 19; 2; 12; 7; 17]) then [(c + 10) mod 20]
  else if bool_decide (c ∈ [3; 23]) then [(c + 20) mod 40]
  else [(c + 10) mod 30; (c + 20) mod 30].

(** All ways to roll [n] dice, and the number of those of sum [k]. *)
Fixpoint dice_rolls (n : nat) : list (list Z) :=
  match n with
  | O => [[]]
  | S n' => concat (map (fun r => map (fun face => face :: r) (seqZ 1 6)) (dice_rolls n'))
  end.

Definition roll_sum (r : list Z) : Z := foldr Z.add 0 r.

Definition ways (n : nat) (k : Z) : Z :=
  Z.of_nat (length (filter (fun r => roll_sum r = k) (dice_rolls n))).

(** The distribution of the sum of [n] fair dice: each sum with the
    number of its rolls over [6 ^ n], as a rational and as the [double]
    that the division gives. *)
Definition dice_sum_probability (n : nat) (k : Z) : Q :=
  Qmake (ways n k) (Pos.pow 6 (Pos.of_nat n)).

Definition dice_sum_pmf (n : nat) : list (Z * double) :=
  map (fun k => (k, ways n k /. 6 ^ Z.of_nat n))
    (seqZ (Z.of_nat n) (5 * Z.of_nat n + 1)).

(** The number of bits that are set in a bit mask. *)
Fixpoint popcount_pos (p : positive) : Z :=
  match p with
  | xH => 1
  | xO q => popcount_pos q
  | xI q => 1 + popcount_pos q
  end.

Definition popcount (d : Z) : Z :=
  match d with
  | Z.pos p => popcount_pos p
  | _ => 0
  end.

(** The number that a [double] stands for (0 for what is not a finite
    number), and the sum of such numbers. *)
Definition double_value (x : double) : Q :=
  match x with
  | S754_finite s m e => (inject_Z (if s then Z.neg m else Z.pos m) * Qpower 2 e)%Q
  | _ => 0%Q
  end.

Definition Qsum (l : list Q) : Q := foldr Qplus 0%Q l.

(** The sum of [double]s as a loop [sum += x] computes it, from [0.0]. *)
Definition double_sum (l : list double) : double :=
  foldl (SFadd 53 1024) (S754_zero false) l.

(** [x] is within [2 ^ - k] of [y]. *)
Definition Qnear (k : Z) (x y : Q) : Prop :=
  (Qabs (x - y) <= Qpower 2 (- k))%Q.

Definition Qnearb (k : Z) (x y : Q) : bool :=
  Qle_bool (Qabs (x - y)) (Qpower 2 (- k)).

(** The [double] [x] is the number [q] rounded to the nearest: a number
    [m * 2 ^ e] with a mantissa [m] of 53 bits, within half a unit of its
    last place, [2 ^ (e - 1)], of [q]. *)
Definition rounded (q : Q) (x : double) : Prop :=
  exists sign m e,
    x = S754_finite sign m e /\ 2 ^ 52 <= Z.pos m < 2 ^ 53 /\
    (Qabs (double_value x - q) <= Qpower 2 (e - 1))%Q.

Definition roundedb (q : Q) (x : double) : bool :=
  match x with
  | S754_finite _ m e =>
      (2 ^ 52 <=? Z.pos m) && (Z.pos m <? 2 ^ 53)
      && Qle_bool (Qabs (double_value x - q)) (Qpower 2 (e - 1))
  | _ => false
  end.

(** The board of player [p]: its 27 fields and its miss slot. *)
Definition board (s : QwintoState) (p : Z) : list Z :=
  map (board_at s p) (seqZ 0 kBoardSize).

Definition filled (v : Z) : bool := negb (v =? 0).

(** The score of a row: its last field when it is full, the number of
    filled fields otherwise. *)
Definition row_score (row : list Z) : Z :=
  if forallb filled row then row !!! 8%nat
  else Z.of_nat (length (filter (fun v => filled v = true) row)).

(** The five diagonals with the cell whose value is the bonus. *)
Definition diagonals : list (list nat * nat) :=
  [([0; 10; 20], 20); ([1; 11; 21], 1); ([4; 14; 24], 4);
   ([5; 15; 25], 15); ([6; 16; 26], 26)]%nat.

Definition diagonal_score (b : list Z) (d : list nat * nat) : Z :=
  if forallb (fun i => filled (b !!! i)) (fst d) then b !!! snd d else 0.

(** The score of one board. *)
Definition board_score (b : list Z) : Z :=
  row_score (take 9 b) + row_score (take 9 (drop 9 b)) + row_score (take 9 (drop 18 b))
  + foldr Z.add 0 (map (diagonal_score b) diagonals)
  + b !!! 27%nat.

(** Cell [j] of the vector [scores_] after the loop of [DoApplyActions]
    from player [p] on: "skip" writes nothing, "miss" adds the penalty at
    index [p * kBoardSize + a], and every other action [a] stores the
    outcome at that index, whatever cell of whatever board it is. *)
Fixpoint flat_after (outcome p : Z) (actions : list Z) (j old : Z) : Z :=
  match actions with
  | [] => old
  | a :: rest =>
      flat_after outcome (p + 1) rest j
        (if a =? kActionSkip then old
         else if j =? p * kBoardSize + a then
           (if a =? kActionMiss then old + kDefaultMissPoints else outcome)
         else old)
  end.

(** What a submitted action [a] of player [p] makes of cell [i] of that
    player's board, which held [old]. *)
Definition submitted (outcome a i old : Z) : Z :=
  if a =? kActionSkip then old
  else if a =? kActionMiss then
    (if i =? kDefaultNumDice * kDefaultNumFields then old + kDefaultMissPoints else old)
  else if i =? a then outcome
  else old.

(** The action of player [p] in the list [actions] of the players from
    [p0] on. *)
Definition action_of (p0 : Z) (actions : list Z) (p : Z) : option Z :=
  if p <? p0 then None else actions !! Z.to_nat (p - p0).

Definition cell_after (outcome : Z) (a : option Z) (i old : Z) : Z :=
  match a with
  | Some a => submitted outcome a i old
  | None => old
  end.

(** A joint action: one legal action for each player. *)
Definition legal_joint_action (s : QwintoState) (actions : list Z) : Prop :=
  Z.of_nat (length actions) = num_players_ s /\
  forall (p : nat) a, actions !! p = Some a -> legal_action s (Z.of_nat p) a.

(** The fields to the left of field [i] in its row are filled and smaller
    than the outcome; the fields to its right are empty or larger. *)
Definition left_filled_and_smaller (s : QwintoState) (p i : Z) : bool :=
  forallb (fun k => negb (board_at s p k =? 0) && (board_at s p k <? dice_outcome_ s))
    (seqZ (i / 9 * 9) (i mod 9)).

Definition right_empty_or_larger (s : QwintoState) (p i : Z) : bool :=
  forallb (fun k => (board_at s p k =? 0) || (dice_outcome_ s <? board_at s p k))
    (seqZ (i + 1) (8 - i mod 9)).

(** ** Some games *)

(** The orange die shows 3 and is accepted. *)
Definition orange_three : list move := [Single 1; Single 3; Single 1].

(** One player: 10 in the first orange field, 12 in the second yellow
    field, 14 in the second orange field, and a fourth turn up to the roll
    of all three dice. *)
Definition three_fields : list move :=
  [Single 7; Single 10; Single 1; Joint [0];
   Single 7; Single 12; Single 1; Joint [10];
   Single 7; Single 14; Single 1; Joint [1];
   Single 7].

(** One player misses four times. *)
Definition four_misses : list move :=
  [Single 1; Single 3; Single 1; Joint [27];
   Single 1; Single 3; Single 1; Joint [27];
   Single 1; Single 3; Single 1; Joint [27];
   Single 1; Single 3; Single 1; Joint [27]].

(** Three fields and four misses: the game is over. *)
Definition whole_game : list move :=
  [Single 7; Single 10; Single 1; Joint [0];
   Single 7; Single 12; Single 1; Joint [10];
   Single 7; Single 14; Single 1; Joint [1]] ++ four_misses.

(** Values of the parameters for these games: "skip" is 28, the dice may
    be rolled twice, and the helpers of [SimMoveState] (which these games
    never call) know one joint action. *)
Definition skip28 : Z := 28.
Definition two_rolls : Z := 2.
Definition one_flat_action (s : QwintoState) : result (list Z) := Ok [0].
Definition no_actions (s : QwintoState) (a : Z) : list Z := [].

(** The states at the end of these games. *)
Definition orange_three_state (n : Z) : QwintoState :=
  {| num_players_ := n; player_ := -2; current_player_ := 0;
     num_dice_rolls_ := 1; dice_ := 1; dice_outcome_ := 3;
     phase_ := kSubmitPoints;
     scores_ := replicate (Z.to_nat (n * 28)) 0 |}.

Definition three_fields_state : QwintoState :=
  {| num_players_ := 1; player_ := -1; current_player_ := 0;
     num_dice_rolls_ := 1; dice_ := 7; dice_outcome_ := 14;
     phase_ := kRollDice;
     scores_ := [10; 14; 0; 0; 0; 0; 0; 0; 0;
                 0; 12; 0; 0; 0; 0; 0; 0; 0;
                 0; 0; 0; 0; 0; 0; 0; 0; 0; 0] |}.

Definition end_state : QwintoState :=
  {| num_players_ := 1; player_ := 0; current_player_ := 0;
     num_dice_rolls_ := 1; dice_ := 1; dice_outcome_ := 3;
     phase_ := kSelectDice;
     scores_ := [10; 14; 0; 0; 0; 0; 0; 0; 0;
                 0; 12; 0; 0; 0; 0; 0; 0; 0;
                 0; 0; 0; 0; 0; 0; 0; 0; 0; -20] |}.

(** [end_state] after one more call of [DoApplyAction], with action 1. *)
Definition after_end_state : QwintoState :=
  {| num_players_ := 1; player_ := -1; current_player_ := 0;
     num_dice_rolls_ := 1; dice_ := 1; dice_outcome_ := 3;
     phase_ := kRollDice;
     scores_ := [10; 14; 0; 0; 0; 0; 0; 0; 0;
                 0; 12; 0; 0; 0; 0; 0; 0; 0;
                 0; 0; 0; 0; 0; 0; 0; 0; 0; -20] |}.

(** ** The invariant of play *)

Definition turn_consistent (s : QwintoState) : Prop :=
  match phase_ s with
  | kSelectDice => player_ s = current_player_ s
  | kRollDice =>
      1 <= dice_ s <= 7 /\
      (player_ s = kChancePlayerId \/
       (player_ s = current_player_ s /\ 1 <= dice_outcome_ s <= 18))
  | kSubmitPoints =>
      1 <= dice_ s <= 7 /\ player_ s = kSimultaneousPlayerId /\
      1 <= dice_outcome_ s <= 18
  end.

(** What holds of the board [b] of each player. *)
Record board_ok (b : Z -> Z) : Prop := {
  ok_fields : forall i, 0 <= i < 27 -> 0 <= b i <= 18;
  ok_miss : -24 <= b 27 <= 0;
  ok_rows : forall i j, 0 <= i -> i < j -> j < 27 ->
      Z.quot i 9 = Z.quot j 9 -> b i <> 0 -> b j <> 0 -> b i < b j;
  ok_pairs : forall c d, 0 <= c < 27 -> d ∈ paired_cells c ->
      b c <> 0 -> b c <> b d
}.

Record Inv (n : Z) (s : QwintoState) : Prop := {
  Inv_players : num_players_ s = n;
  Inv_length : Z.of_nat (length (scores_ s)) = n * kBoardSize;
  Inv_current : 0 <= current_player_ s < n;
  Inv_turn : turn_consistent s;
  Inv_boards : forall p, 0 <= p < n -> board_ok (board_at s p)
}.

(** ** Turns *)

(** The joint action in which the current player misses and the others
    skip. *)
Definition miss_and_skip (s : QwintoState) : list Z :=
  map (fun p => if p =? current_player_ s then kActionMiss else kActionSkip)
    (seqZ 0 (num_players_ s)).

(** A legal play from a state to a state, with the number of its joint
    actions (every joint action ends a turn) and the number of its actions
    of single players; the outcomes of chance are not counted. *)
Inductive Play : QwintoState -> nat -> nat -> QwintoState -> Prop :=
| play_done s : Play s 0 0 s
| play_chance s s1 t m s2 :
    IsChanceNode s = true -> Step s s1 -> Play s1 t m s2 -> Play s t m s2
| play_single s s1 t m s2 :
    IsChanceNode s = false -> IsSimultaneousNode s = false ->
    Step s s1 -> Play s1 t m s2 -> Play s t (S m) s2
| play_joint s s1 t m s2 :
    IsSimultaneousNode s = true -> Step s s1 -> Play s1 t m s2 -> Play s (S t) m s2.

(** The two numbers of [Play] for a concrete game. *)
Fixpoint tally (s : QwintoState) (ms : list move) : result (nat * nat) :=
  match ms with
  | [] => Ok (0%nat, 0%nat)
  | mv :: ms' =>
      s' <- play1 s mv ;;
      c <- tally s' ms' ;;
      Ok (if IsSimultaneousNode s then (S (fst c), snd c)
          else if IsChanceNode s then c
          else (fst c, S (snd c)))
  end.

Definition sumZ (f : Z -> Z) (l : list Z) : Z := foldr Z.add 0 (map f l).

(** The empty fields of a board, the misses it can take before the game
    ends, and their sum over the players. *)
Definition empty_fields (b : Z -> Z) : Z :=
  sumZ (fun i => b2z (b i =? 0)) (seqZ 0 (kDefaultNumDice * kDefaultNumFields)).

Definition misses_left (b : Z -> Z) : Z :=
  (b (kDefaultNumDice * kDefaultNumFields) - kDefaultTerminationPoints) / 5.

Definition turns_left (s : QwintoState) : Z :=
  sumZ (fun p => empty_fields (board_at s p) + misses_left (board_at s p))
    (seqZ 0 (num_players_ s)).

(** The actions that single players have taken in the turn of a state. *)
Definition decisions (s : QwintoState) : Z :=
  match phase_ s with
  | kSelectDice => 0
  | kRollDice => num_dice_rolls_ s
  | kSubmitPoints => num_dice_rolls_ s + 1
  end.

(** More of what play keeps: the miss slots count misses of 5 points, at
    most four of them; the dice are rolled at most as often as allowed; a
    game ends in the [kSelectDice] phase. *)
Record Inv2 (s : QwintoState) : Prop := {
  Inv2_miss : forall p, 0 <= p < num_players_ s ->
      board_at s p 27 ∈ [0; -5; -10; -15; -20];
  Inv2_rolls : 0 <= num_dice_rolls_ s <= Z.max 1 kDefaultNumDiceRolls;
  Inv2_end : IsTerminal s = true -> phase_ s = kSelectDice
}.

(** * Proofs *)

(** ** Results *)

Lemma rbind_Ok {A B : Type} (c : result A) (k : A -> result B) (b : B) :
  rbind c k = Ok b -> exists a, c = Ok a /\ k a = Ok b.
Proof. destruct c as [a| |]; simpl; intros H; try discriminate. eauto. Qed.

Lemma SPIEL_CHECK_Ok (b : bool) (u : unit) : SPIEL_CHECK b = Ok u -> b = true.
Proof. destruct b; simpl; [reflexivity | discriminate]. Qed.

Lemma SPIEL_CHECK_true (b : bool) : b = true -> SPIEL_CHECK b = Ok tt.
Proof. intros ->. reflexivity. Qed.

(** Splits a hypothesis [c ;;; k = Ok b] into its checks. *)
Ltac inv_ok H :=
  repeat match type of H with
  | rbind (SPIEL_CHECK _) _ = Ok _ =>
      let u := fresh "u" in let Hc := fresh "Hcheck" in
      apply rbind_Ok in H as (u & Hc & H); apply SPIEL_CHECK_Ok in Hc
  | rbind _ _ = Ok _ =>
      let x := fresh "x" in let Hc := fresh "Hrun" in
      apply rbind_Ok in H as (x & Hc & H)
  end.

(** Decides every integer test of the goal. *)
Ltac case_tests :=
  repeat match goal with
  | |- context [?x =? ?y] => destruct (Z.eqb_spec x y)
  | |- context [?x <? ?y] => destruct (Z.ltb_spec x y)
  | |- context [?x <=? ?y] => destruct (Z.leb_spec x y)
  end.

(** Forgets the parameters that the goal does not mention, so that a
    proof depends on those of its statement only. *)
Ltac clear_parameters :=
  try clear LegalFlatJointActions; try clear FlatJointActionToActions;
  try clear kDefaultNumDiceRolls; try clear kActionSkip.

(** Unfolds the sizes of the board. *)
Ltac sizes :=
  clear_parameters;
  unfold kBoardSize, kActionMiss, kDefaultNumDice, kDefaultNumFields,
    kDefaultMissPoints, kDefaultTerminationPoints, INT_MIN, INT_MAX in *;
  change (3 * 9 + 1) with 28 in *; change (3 * 9) with 27 in *.

(** Arithmetic with quotients and remainders. *)
Ltac euclid :=
  clear_parameters; Z.to_euclidean_division_equations; lia.

(** Propositional steps. *)
Ltac prop := clear_parameters; tauto.

(** ** Vectors *)

Lemma vget_insert (v : list Z) (i x j : Z) :
  0 <= i < Z.of_nat (length v) -> 0 <= j ->
  vget (<[Z.to_nat i := x]> v) j = if j =? i then x else vget v j.
Proof.
  intros Hi Hj. unfold vget. destruct (Z.eqb_spec j i) as [->|Hne].
  - apply list_lookup_total_insert_eq. lia.
  - apply list_lookup_total_insert_ne. lia.
Qed.

Lemma vset_Ok (v : list Z) (i x : Z) (v' : list Z) :
  vset v i x = Ok v' ->
  0 <= i < Z.of_nat (length v) /\ v' = <[Z.to_nat i := x]> v.
Proof.
  unfold vset. destruct (Z.leb_spec 0 i), (Z.ltb_spec i (Z.of_nat (length v)));
    simpl; intros Heq; inversion Heq; subst. split; [lia | reflexivity].
Qed.

Lemma vadd_Ok (v : list Z) (i d : Z) (v' : list Z) :
  vadd v i d = Ok v' ->
  0 <= i < Z.of_nat (length v) /\ v' = <[Z.to_nat i := vget v i + d]> v.
Proof.
  unfold vadd. destruct (Z.leb_spec 0 i), (Z.ltb_spec i (Z.of_nat (length v)));
    simpl; try discriminate.
  destruct (_ && _); intros Heq; inversion Heq; subst. split; [lia | reflexivity].
Qed.

Lemma vset_in_range (v : list Z) (i x : Z) :
  0 <= i < Z.of_nat (length v) -> vset v i x = Ok (<[Z.to_nat i := x]> v).
Proof.
  intros Hi. unfold vset.
  destruct (Z.leb_spec 0 i), (Z.ltb_spec i (Z.of_nat (length v))); simpl; try lia.
  reflexivity.
Qed.

Lemma vadd_in_range (v : list Z) (i d : Z) :
  0 <= i < Z.of_nat (length v) -> INT_MIN <= vget v i + d <= INT_MAX ->
  vadd v i d = Ok (<[Z.to_nat i := vget v i + d]> v).
Proof.
  intros Hi Hx. unfold vadd.
  destruct (Z.leb_spec 0 i), (Z.ltb_spec i (Z.of_nat (length v))); simpl; try lia.
  destruct (Z.leb_spec INT_MIN (vget v i + d)), (Z.leb_spec (vget v i + d) INT_MAX);
    simpl; try lia.
  reflexivity.
Qed.

(** ** The loop of [DoApplyActions] *)

Lemma action_of_cons_head (p0 a : Z) (rest : list Z) :
  action_of p0 (a :: rest) p0 = Some a.
Proof. unfold action_of. rewrite Z.ltb_irrefl, Z.sub_diag. reflexivity. Qed.

Lemma action_of_cons_tail (p0 a : Z) (rest : list Z) (p : Z) :
  p <> p0 -> action_of p0 (a :: rest) p = action_of (p0 + 1) rest p.
Proof.
  intros Hne. unfold action_of.
  destruct (Z.ltb_spec p p0), (Z.ltb_spec p (p0 + 1)); try lia; try reflexivity.
  replace (Z.to_nat (p - p0)) with (S (Z.to_nat (p - (p0 + 1)))) by lia.
  reflexivity.
Qed.

(** The cells after the loop: every player's board has met that player's
    action and nothing else. *)
Lemma apply_actions_cells (cur outcome : Z) (actions : list Z) :
  forall (p0 : Z) (scores scores' : list Z),
    0 <= p0 ->
    (forall a, a ∈ actions -> a <> kActionSkip -> 0 <= a < kBoardSize) ->
    apply_actions cur outcome p0 actions scores = Ok scores' ->
    length scores' = length scores /\
    forall p i, 0 <= p -> 0 <= i < kBoardSize ->
      vget scores' (p * kBoardSize + i)
      = cell_after outcome (action_of p0 actions p) i (vget scores (p * kBoardSize + i)).
Proof.
  induction actions as [|a rest IH]; intros p0 scores scores' Hp0 Hrange Hrun.
  - simpl in Hrun. inversion Hrun; subst. split; [reflexivity|].
    intros p i _ _. unfold action_of. destruct (p <? p0); [reflexivity|].
    rewrite lookup_nil. reflexivity.
  - assert (Hrest : forall a', a' ∈ rest -> a' <> kActionSkip -> 0 <= a' < kBoardSize)
      by (intros a' Ha'; apply Hrange; right; exact Ha').
    assert (Hstep : forall scores1,
      apply_actions cur outcome (p0 + 1) rest scores1 = Ok scores' ->
      length scores1 = length scores ->
      (forall i, 0 <= i < kBoardSize ->
         vget scores1 (p0 * kBoardSize + i)
         = submitted outcome a i (vget scores (p0 * kBoardSize + i))) ->
      (forall p i, 0 <= p -> p <> p0 -> 0 <= i < kBoardSize ->
         vget scores1 (p * kBoardSize + i) = vget scores (p * kBoardSize + i)) ->
      length scores' = length scores /\
      forall p i, 0 <= p -> 0 <= i < kBoardSize ->
        vget scores' (p * kBoardSize + i)
        = cell_after outcome (action_of p0 (a :: rest) p) i
            (vget scores (p * kBoardSize + i))).
    { intros scores1 Hrun1 Hlen Hown Hother.
      destruct (IH (p0 + 1) scores1 scores' ltac:(lia) Hrest Hrun1) as [Hlen' Hcells].
      split; [congruence|]. intros p i Hp Hi. rewrite (Hcells p i Hp Hi).
      destruct (Z.eq_dec p p0) as [->|Hne].
      - rewrite action_of_cons_head. unfold action_of at 1.
        destruct (Z.ltb_spec p0 (p0 + 1)); [|lia]. simpl. apply Hown, Hi.
      - rewrite (action_of_cons_tail _ _ _ _ Hne), (Hother p i Hp Hne Hi).
        reflexivity. }
    simpl in Hrun. unfold kBoardSize, kDefaultNumDice, kDefaultNumFields in *.
    destruct (Z.eqb_spec a kActionSkip) as [Hskip|Hskip].
    + inv_ok Hrun. apply (Hstep scores Hrun); [reflexivity| |reflexivity].
      intros i Hi. unfold submitted. rewrite (proj2 (Z.eqb_eq _ _) Hskip). reflexivity.
    + assert (Ha : 0 <= a < 28) by (apply Hrange; [left|exact Hskip]).
      destruct (Z.eqb_spec a kActionMiss) as [Hmiss|Hmiss].
      * inv_ok Hrun. apply vadd_Ok in Hrun0 as [Hidx ->].
        apply (Hstep _ Hrun); [apply length_insert| |].
        -- intros i Hi. rewrite vget_insert by lia. unfold submitted.
           rewrite (proj2 (Z.eqb_neq _ _) Hskip), (proj2 (Z.eqb_eq _ _) Hmiss).
           subst a. unfold kActionMiss, kDefaultNumDice, kDefaultNumFields.
           case_tests; try lia; subst; reflexivity.
        -- intros p i Hp Hne Hi. rewrite vget_insert by lia.
           case_tests; [lia|reflexivity].
      * inv_ok Hrun. apply vset_Ok in Hrun0 as [Hidx ->].
        apply (Hstep _ Hrun); [apply length_insert| |].
        -- intros i Hi. rewrite vget_insert by lia. unfold submitted.
           rewrite (proj2 (Z.eqb_neq _ _) Hskip), (proj2 (Z.eqb_neq _ _) Hmiss).
           case_tests; try lia; reflexivity.
        -- intros p i Hp Hne Hi. rewrite vget_insert by lia.
           case_tests; [lia|reflexivity].
Qed.

(** ** The legal actions *)

Lemma elem_of_merge_sort (l : list Z) (a : Z) : a ∈ merge_sort Z.le l <-> a ∈ l.
Proof. rewrite merge_sort_Permutation. reflexivity. Qed.

(** [LegalActions] for a player index. *)
Lemma LegalActions_player (s : QwintoState) (p : Z) :
  0 <= p < num_players_ s ->
  LegalActions s p
  = Ok (if IsTerminal s then [] else merge_sort Z.le (movelist s p)).
Proof.
  intros Hp. unfold LegalActions, kSimultaneousPlayerId, kChancePlayerId, kTerminalPlayerId.
  case_tests; try lia. simpl. destruct (IsTerminal s); reflexivity.
Qed.

Lemma LegalActions_player_Ok (s : QwintoState) (p : Z) (l : list Z) :
  0 <= p -> LegalActions s p = Ok l ->
  p < num_players_ s /\
  l = if IsTerminal s then [] else merge_sort Z.le (movelist s p).
Proof.
  intros Hp. unfold LegalActions, kSimultaneousPlayerId, kChancePlayerId, kTerminalPlayerId.
  case_tests; try lia; simpl; try discriminate.
  destruct (IsTerminal s); intros Heq; inversion Heq; split; (lia || reflexivity).
Qed.

(** A legal action of a player: the state is not terminal and the action is
    on the move list. *)
Lemma legal_action_player (s : QwintoState) (p a : Z) :
  0 <= p -> legal_action s p a ->
  p < num_players_ s /\ IsTerminal s = false /\ a ∈ movelist s p.
Proof.
  intros Hp (l & Hl & Ha). apply LegalActions_player_Ok in Hl as [Hlt ->]; [|exact Hp].
  destruct (IsTerminal s).
  - inversion Ha.
  - rewrite elem_of_merge_sort in Ha. split; [exact Hlt|split; [reflexivity|exact Ha]].
Qed.

(** The 27 fields, one by one. *)
Lemma field_cases (c : Z) :
  0 <= c < 27 ->
  c ∈ [0; 1; 2; 3; 4; 5; 6; 7; 8; 9; 10; 11; 12; 13; 14; 15; 16; 17; 18; 19;
       20; 21; 22; 23; 24; 25; 26].
Proof. intros Hc. apply (elem_of_seqZ 0 27). lia. Qed.

Ltac each_field c H :=
  apply field_cases in H;
  repeat (apply elem_of_cons in H as [->|H]); [..|inversion H].

(** The pairing table is symmetric, and pairs distinct fields. *)
Lemma paired_cells_sym (c d : Z) :
  0 <= c < 27 -> d ∈ paired_cells c ->
  0 <= d < 27 /\ d <> c /\ c ∈ paired_cells d.
Proof.
  intros Hc Hd. each_field c Hc; vm_compute in Hd;
    repeat (apply elem_of_cons in Hd as [->|Hd]); try (inversion Hd; fail);
    (split; [lia|split; [lia|]]);
    match goal with
    | |- ?x ∈ paired_cells ?y =>
        let l := eval vm_compute in (paired_cells y) in change (x ∈ l)
    end; auto using list_elem_of_here, list_elem_of_further.
Qed.

(** [is_valid_column] compares the outcome with the paired fields. *)
Lemma is_valid_column_paired (b : Z -> Z) (outcome c d : Z) :
  0 <= c < 27 -> is_valid_column b outcome c = true ->
  d ∈ paired_cells c -> b d <> outcome.
Proof.
  intros Hc Hvalid Hd. each_field c Hc; vm_compute in Hd;
    repeat (apply elem_of_cons in Hd as [->|Hd]); try (inversion Hd; fail);
    unfold is_valid_column in Hvalid; simpl in Hvalid;
    repeat match type of Hvalid with
    | context [Z.rem ?x ?y] =>
        let v := eval vm_compute in (Z.rem x y) in change (Z.rem x y) with v in Hvalid
    end;
    repeat (apply andb_prop in Hvalid as [Hvalid ?]);
    repeat match goal with
    | H : negb (_ =? _) = true |- _ => apply negb_true_iff, Z.eqb_neq in H
    end; assumption.
Qed.

(** What the loop of [LegalActions] has found out about a pushed field. *)
Lemma field_is_open_inv (s : QwintoState) (p a : Z) :
  0 <= a < 27 -> field_is_open s p a = true ->
  Z.land (dice_ s) (row_die (Z.quot a 9)) <> 0 /\
  board_at s p a = 0 /\
  (forall k, 0 <= k -> k < a -> Z.quot k 9 = Z.quot a 9 ->
     board_at s p k < dice_outcome_ s) /\
  (forall k, a < k -> k < 27 -> Z.quot k 9 = Z.quot a 9 ->
     board_at s p k = 0 \/ dice_outcome_ s < board_at s p k) /\
  is_valid_column (board_at s p) (dice_outcome_ s) a = true.
Proof.
  intros Ha Hopen. unfold field_is_open, kDefaultNumFields, kInvalidDie in Hopen.
  apply andb_prop in Hopen as [Hopen Hvalid].
  apply andb_prop in Hopen as [Hopen Horder].
  apply andb_prop in Hopen as [Hdie Hfree].
  rewrite negb_orb, !negb_involutive in Horder.
  apply andb_prop in Horder as [Hleft Hright].
  rewrite forallb_forall in Hleft, Hright.
  apply negb_true_iff, Z.eqb_neq in Hdie. apply Z.eqb_eq in Hfree.
  repeat split; try assumption.
  - intros k Hk0 Hka Hrow. apply Z.ltb_lt, Hleft, list_elem_of_In, elem_of_seqZ.
    euclid.
  - intros k Hak Hk Hrow.
    assert (Hin : In k (seqZ (Z.quot a 9 * 9 + Z.rem a 9 + 1) (9 - (Z.rem a 9 + 1)))).
    { apply list_elem_of_In, elem_of_seqZ. euclid. }
    apply Hright in Hin. apply orb_prop in Hin as [Hz|Hgt].
    + left. apply Z.eqb_eq, Hz.
    + right. apply Z.ltb_lt, Hgt.
Qed.

(** The move list of the [kSubmitPoints] phase. *)
Lemma movelist_submit (s : QwintoState) (p a : Z) :
  phase_ s = kSubmitPoints -> a ∈ movelist s p ->
  (0 <= a < 27 /\ field_is_open s p a = true) \/
  a = (if p =? current_player_ s then kActionMiss else kActionSkip).
Proof.
  intros Hphase. unfold movelist. rewrite Hphase.
  rewrite elem_of_app, list_elem_of_filter, elem_of_seqZ, list_elem_of_singleton.
  unfold kDefaultNumDice, kDefaultNumFields. intros [[Hopen Ha]|Ha]; [left|right].
  - split; [lia|exact Hopen].
  - exact Ha.
Qed.

(** ** The boards under the submitted actions *)

Lemma board_ok_ext (b b' : Z -> Z) :
  (forall i, 0 <= i < 28 -> b' i = b i) -> board_ok b -> board_ok b'.
Proof.
  intros Hext [Hf Hm Hr Hp]. split.
  - intros i Hi. rewrite Hext by lia. apply Hf, Hi.
  - rewrite Hext by lia. exact Hm.
  - intros i j Hi Hij Hj. rewrite !Hext by lia. apply Hr; assumption.
  - intros c d Hc Hd. destruct (paired_cells_sym c d Hc Hd) as (Hd' & _ & _).
    rewrite !Hext by lia. apply Hp; assumption.
Qed.

Lemma board_ok_miss (b b' : Z -> Z) :
  board_ok b -> -20 < b 27 ->
  (forall i, 0 <= i < 28 -> b' i = if i =? 27 then b i + kDefaultMissPoints else b i) ->
  board_ok b'.
Proof.
  intros [Hf Hm Hr Hp] Hlive Hb'. unfold kDefaultMissPoints in Hb'.
  assert (Hsame : forall i, 0 <= i < 27 -> b' i = b i).
  { intros i Hi. rewrite Hb' by lia. case_tests; [lia|reflexivity]. }
  split.
  - intros i Hi. rewrite Hsame by lia. apply Hf, Hi.
  - rewrite Hb' by lia. simpl. lia.
  - intros i j Hi Hij Hj. rewrite !Hsame by lia. apply Hr; assumption.
  - intros c d Hc Hd. destruct (paired_cells_sym c d Hc Hd) as (Hd' & _ & _).
    rewrite !Hsame by lia. apply Hp; assumption.
Qed.

Lemma board_ok_write (b b' : Z -> Z) (outcome a : Z) :
  board_ok b -> 1 <= outcome <= 18 -> 0 <= a < 27 ->
  (forall k, 0 <= k -> k < a -> Z.quot k 9 = Z.quot a 9 -> b k < outcome) ->
  (forall k, a < k -> k < 27 -> Z.quot k 9 = Z.quot a 9 -> b k = 0 \/ outcome < b k) ->
  is_valid_column b outcome a = true ->
  (forall i, 0 <= i < 28 -> b' i = if i =? a then outcome else b i) ->
  board_ok b'.
Proof.
  intros [Hf Hm Hr Hp] Hout Ha Hleft Hright Hvalid Hb'.
  assert (Hat : b' a = outcome).
  { rewrite Hb' by lia. rewrite Z.eqb_refl. reflexivity. }
  assert (Hsame : forall i, 0 <= i < 28 -> i <> a -> b' i = b i).
  { intros i Hi Hne. rewrite Hb' by lia. case_tests; [lia|reflexivity]. }
  split.
  - intros i Hi. destruct (Z.eq_dec i a) as [->|Hne].
    + rewrite Hat. lia.
    + rewrite Hsame by lia. apply Hf, Hi.
  - rewrite Hsame by lia. exact Hm.
  - intros i j Hi Hij Hj Hrow.
    destruct (Z.eq_dec i a) as [->|Hia]; [|destruct (Z.eq_dec j a) as [->|Hja]].
    + rewrite Hat, (Hsame j) by lia. intros _ Hnz.
      destruct (Hright j Hij Hj (eq_sym Hrow)); [contradiction|assumption].
    + rewrite Hat, (Hsame i) by lia. intros _ _. apply Hleft; assumption.
    + rewrite (Hsame i), (Hsame j) by lia. apply Hr; assumption.
  - intros c d Hc Hd. destruct (paired_cells_sym c d Hc Hd) as (Hd' & Hdc & Hsym).
    destruct (Z.eq_dec c a) as [->|Hca]; [|destruct (Z.eq_dec d a) as [->|Hda]].
    + rewrite Hat, (Hsame d) by lia. intros _ Heq.
      apply (is_valid_column_paired b outcome a d Ha Hvalid Hd). symmetry. exact Heq.
    + rewrite Hat, (Hsame c) by lia. intros _.
      apply (is_valid_column_paired b outcome a c Ha Hvalid Hsym).
    + rewrite (Hsame c), (Hsame d) by lia. apply Hp; assumption.
Qed.

(** A board stays well formed under a legal action. *)
Lemma board_ok_submitted (s : QwintoState) (p a : Z) :
  board_ok (board_at s p) -> 1 <= dice_outcome_ s <= 18 ->
  -20 < board_at s p 27 -> phase_ s = kSubmitPoints ->
  a ∈ movelist s p ->
  board_ok (fun i => submitted (dice_outcome_ s) a i (board_at s p i)).
Proof.
  intros Hok Hout Hlive Hphase Ha. apply (movelist_submit s p a Hphase) in Ha.
  unfold submitted, kActionMiss, kDefaultNumDice, kDefaultNumFields.
  destruct (Z.eqb_spec a kActionSkip) as [Hs|Hs].
  { apply (board_ok_ext (board_at s p)); [reflexivity|exact Hok]. }
  destruct (Z.eqb_spec a (3 * 9)) as [Hm|Hm].
  { apply (board_ok_miss (board_at s p)); [exact Hok|exact Hlive|reflexivity]. }
  destruct Ha as [[Ha Hopen]|Ha].
  - destruct (field_is_open_inv s p a Ha Hopen) as (_ & _ & Hleft & Hright & Hvalid).
    apply (board_ok_write (board_at s p) _ (dice_outcome_ s) a); try assumption.
    reflexivity.
  - unfold kActionMiss, kDefaultNumDice, kDefaultNumFields in Ha.
    destruct (p =? current_player_ s); contradiction.
Qed.

(** ** The invariant *)

Lemma board_at_miss (s : QwintoState) (p : Z) :
  board_at s p 27 = vget (scores_ s) ((p + 1) * kBoardSize - 1).
Proof. unfold board_at, kBoardSize, kDefaultNumDice, kDefaultNumFields. f_equal. lia. Qed.

Lemma IsTerminal_false (s : QwintoState) :
  IsTerminal s = false <->
  forall p, 0 <= p < num_players_ s -> -20 < board_at s p 27.
Proof.
  unfold IsTerminal, kDefaultTerminationPoints. split.
  - intros Hex p Hp. rewrite board_at_miss.
    destruct (Z.leb_spec (vget (scores_ s) ((p + 1) * kBoardSize - 1)) (-20)) as [Hle|]; [|lia].
    exfalso. apply not_true_iff_false in Hex. apply Hex, existsb_exists.
    exists p. split; [apply list_elem_of_In, elem_of_seqZ; lia|].
    apply Z.leb_le, Hle.
  - intros Hall. apply not_true_iff_false. intros Hex.
    apply existsb_exists in Hex as (p & Hin & Hle).
    apply list_elem_of_In, elem_of_seqZ in Hin. apply Z.leb_le in Hle.
    rewrite <- board_at_miss in Hle. specialize (Hall p ltac:(lia)). lia.
Qed.

Lemma CurrentPlayer_live (s : QwintoState) :
  IsTerminal s = false -> CurrentPlayer s = player_ s.
Proof. unfold CurrentPlayer. intros ->. reflexivity. Qed.

Lemma CurrentPlayer_terminal (s : QwintoState) :
  IsTerminal s = true -> CurrentPlayer s = kTerminalPlayerId.
Proof. unfold CurrentPlayer. intros ->. reflexivity. Qed.

Lemma Inv_init (n : Z) : 1 <= n -> Inv n (NewInitialState n).
Proof.
  intros Hn. unfold NewInitialState, kBoardSize, kDefaultNumDice, kDefaultNumFields.
  assert (Hzero : forall p i, 0 <= p < n -> 0 <= i < 28 ->
            vget (replicate (Z.to_nat (n * (3 * 9 + 1))) 0) (p * (3 * 9 + 1) + i) = 0).
  { intros p i Hp Hi. unfold vget. apply lookup_total_replicate_2. lia. }
  split; simpl.
  - reflexivity.
  - rewrite length_replicate. unfold kBoardSize, kDefaultNumDice, kDefaultNumFields. lia.
  - lia.
  - reflexivity.
  - intros p Hp. unfold board_at, kBoardSize, kDefaultNumDice, kDefaultNumFields. simpl.
    split.
    + intros i Hi. rewrite Hzero by lia. lia.
    + rewrite Hzero by lia. lia.
    + intros i j Hi Hij Hj _. rewrite Hzero by lia. congruence.
    + intros c d Hc _. rewrite Hzero by lia. congruence.
Qed.

(** At a simultaneous node the game is in the [kSubmitPoints] phase, with a
    dice outcome. *)
Lemma simultaneous_node_inv (n : Z) (s : QwintoState) :
  Inv n s -> IsSimultaneousNode s = true ->
  IsTerminal s = false /\ phase_ s = kSubmitPoints /\ 1 <= dice_outcome_ s <= 18.
Proof.
  intros HI Hsim. unfold IsSimultaneousNode, CurrentPlayer in Hsim.
  destruct (IsTerminal s); [discriminate|]. apply Z.eqb_eq in Hsim.
  pose proof (Inv_turn _ _ HI) as Ht. pose proof (Inv_current _ _ HI) as Hc.
  unfold turn_consistent, kSimultaneousPlayerId, kChancePlayerId in *.
  destruct (phase_ s); [lia|lia|]. split; [reflexivity|]. split; [reflexivity|]. prop.
Qed.

(** The actions of a legal joint action, one by one. *)
Lemma legal_joint_action_inv (n : Z) (s : QwintoState) (actions : list Z) :
  Inv n s -> IsSimultaneousNode s = true -> legal_joint_action s actions ->
  forall p, 0 <= p < n ->
    exists a, action_of 0 actions p = Some a /\ a ∈ movelist s p.
Proof.
  intros HI Hsim [Hlen Hlegal] p Hp. rewrite (Inv_players _ _ HI) in Hlen.
  destruct (lookup_lt_is_Some_2 actions (Z.to_nat p)) as [a Ha]; [lia|].
  exists a. split.
  - unfold action_of. destruct (Z.ltb_spec p 0); [lia|]. rewrite Z.sub_0_r. exact Ha.
  - specialize (Hlegal _ _ Ha). rewrite Z2Nat.id in Hlegal by lia.
    apply legal_action_player in Hlegal; [|lia]. prop.
Qed.

Lemma legal_joint_action_range (n : Z) (s : QwintoState) (actions : list Z) :
  Inv n s -> IsSimultaneousNode s = true -> legal_joint_action s actions ->
  forall a, a ∈ actions -> a <> kActionSkip -> 0 <= a < kBoardSize.
Proof.
  intros HI Hsim [Hlen Hlegal] a Ha Hskip.
  destruct (simultaneous_node_inv n s HI Hsim) as (_ & Hphase & _).
  apply list_elem_of_lookup in Ha as [k Hk]. specialize (Hlegal _ _ Hk).
  apply legal_action_player in Hlegal as (_ & _ & Hin); [|lia].
  apply (movelist_submit s _ a Hphase) in Hin.
  unfold kBoardSize, kActionMiss, kDefaultNumDice, kDefaultNumFields in *.
  destruct Hin as [[Hin _]|Hin]; [lia|].
  destruct (_ =? _); [lia|contradiction].
Qed.

(** [DoApplyActions] keeps the invariant. *)
Lemma Inv_DoApplyActions (n : Z) (s s' : QwintoState) (actions : list Z) :
  Inv n s -> IsSimultaneousNode s = true -> legal_joint_action s actions ->
  DoApplyActions s actions = Ok s' -> Inv n s'.
Proof.
  intros HI Hsim Hlegal Hrun.
  destruct (simultaneous_node_inv n s HI Hsim) as (Hlive & Hphase & Hout).
  pose proof (legal_joint_action_range n s actions HI Hsim Hlegal) as Hrange.
  pose proof (legal_joint_action_inv n s actions HI Hsim Hlegal) as Hact.
  unfold DoApplyActions in Hrun. inv_ok Hrun. inversion Hrun; subst s'; clear Hrun.
  destruct (apply_actions_cells _ _ _ 0 _ _ ltac:(lia) Hrange Hrun0) as [Hlen Hcells].
  pose proof (Inv_players _ _ HI) as Hn. pose proof (Inv_current _ _ HI) as Hcur.
  split; simpl.
  - exact Hn.
  - rewrite Hlen. apply (Inv_length _ _ HI).
  - rewrite Hn. euclid.
  - reflexivity.
  - intros p Hp. destruct (Hact p Hp) as (a & Ha & Hin).
    apply (board_ok_ext (fun i => submitted (dice_outcome_ s) a i (board_at s p i))).
    + intros i Hi. unfold board_at at 1. simpl. rewrite Hcells, Ha; [reflexivity|lia|].
      unfold kBoardSize, kDefaultNumDice, kDefaultNumFields. lia.
    + apply board_ok_submitted; try assumption.
      * apply (Inv_boards _ _ HI), Hp.
      * apply IsTerminal_false; [exact Hlive|]. rewrite Hn. exact Hp.
Qed.

(** The outcomes of a chance node are sums of dice. *)
Lemma ChanceOutcomes_support (s : QwintoState) (outs : list (Z * double)) (a : Z) :
  ChanceOutcomes s = Ok outs -> a ∈ map fst outs -> 1 <= a <= 18.
Proof.
  unfold ChanceOutcomes. intros Hrun Ha. inv_ok Hrun. inversion Hrun; subst outs.
  destruct (num_dice s =? 1); [|destruct (num_dice s =? 2); [|destruct (num_dice s =? 3)]];
    simpl in Ha; repeat (apply elem_of_cons in Ha as [->|Ha]); try lia; inversion Ha.
Qed.

Lemma to_int_small (a : Z) : INT_MIN <= a <= INT_MAX -> to_int a = a.
Proof.
  unfold to_int, INT_MIN, INT_MAX. intros Ha.
  rewrite Z.mod_small by lia. lia.
Qed.

(** [DoApplyAction] keeps the invariant. *)
Lemma Inv_DoApplyAction (n : Z) (s s' : QwintoState) (a : Z) :
  Inv n s -> CurrentPlayer s <> kSimultaneousPlayerId ->
  legal_action s (CurrentPlayer s) a ->
  DoApplyAction s a = Ok s' -> Inv n s'.
Proof.
  intros HI Hnsim Hlegal Hrun.
  destruct (IsTerminal s) eqn:Hterm.
  { rewrite (CurrentPlayer_terminal s Hterm) in Hlegal.
    destruct Hlegal as (l & Hl & Ha). unfold LegalActions in Hl. simpl in Hl.
    inversion Hl; subst l. inversion Ha. }
  rewrite (CurrentPlayer_live s Hterm) in Hlegal, Hnsim.
  pose proof (Inv_turn _ _ HI) as Ht. pose proof (Inv_current _ _ HI) as Hc.
  pose proof (Inv_players _ _ HI) as Hn.
  unfold DoApplyAction, IsSimultaneousNode, IsChanceNode in Hrun.
  rewrite (CurrentPlayer_live s Hterm) in Hrun.
  unfold turn_consistent in Ht.
  destruct (Z.eqb_spec (player_ s) kSimultaneousPlayerId) as [|_]; [contradiction|].
  unfold kSimultaneousPlayerId, kChancePlayerId in *.
  destruct (Z.eqb_spec (player_ s) (-1)) as [Hchance|Hplayer].
  - (* a chance node *)
    inv_ok Hrun. inversion Hrun; subst s'; clear Hrun.
    destruct Hlegal as (l & Hl & Ha). rewrite Hchance in Hl.
    unfold LegalActions, LegalChanceOutcomes in Hl. simpl in Hl.
    inv_ok Hl. inversion Hl; subst l; clear Hl.
    pose proof (ChanceOutcomes_support s x a Hrun Ha) as Hsum.
    destruct (phase_ s) eqn:Hphase; try discriminate.
    split; simpl; try (apply HI; fail); try assumption.
    unfold turn_consistent. simpl.
    rewrite to_int_small by (unfold INT_MIN, INT_MAX; lia). prop.
  - (* a decision of the current player *)
    inv_ok Hrun.
    assert (Hp : 0 <= player_ s) by (apply Z.leb_le; assumption).
    apply legal_action_player in Hlegal as (_ & _ & Ha); [|exact Hp].
    unfold movelist in Ha.
    destruct (phase_ s) eqn:Hphase; try discriminate.
    + destruct ((0 <=? a) && (a <=? 7)); [|discriminate].
      inversion Hrun; subst s'; clear Hrun.
      split; simpl; try (apply HI; fail); try assumption.
      unfold turn_consistent. simpl.
      repeat (apply elem_of_cons in Ha as [->|Ha]); try (inversion Ha; fail);
        vm_compute; intuition discriminate.
    + destruct Ht as [Hdice [Hch|[_ Hout]]]; [lia|].
      destruct (Z.eqb_spec a 0).
      * inv_ok Hrun. inversion Hrun; subst s'; clear Hrun.
        split; simpl; try (apply HI; fail); try assumption.
        unfold turn_consistent. simpl. prop.
      * inversion Hrun; subst s'; clear Hrun.
        split; simpl; try (apply HI; fail); try assumption.
        unfold turn_consistent, kSimultaneousPlayerId. simpl. prop.
Qed.

(** Every state of a game satisfies the invariant. *)
Lemma Inv_Step (n : Z) (s s' : QwintoState) : Inv n s -> Step s s' -> Inv n s'.
Proof.
  intros HI [a s1 Hnsim Hlegal Hrun|actions s1 Hsim Hlen Hlegal Hrun].
  - eapply Inv_DoApplyAction; eassumption.
  - eapply Inv_DoApplyActions; try eassumption. split; assumption.
Qed.

Lemma reachable_Inv (n : Z) (s : QwintoState) : reachable n s -> Inv n s.
Proof.
  intros [Hn Hrtc]. revert s Hrtc. apply rtc_ind_r.
  - apply Inv_init, Hn.
  - intros s1 s2 _ Hstep IH. exact (Inv_Step n s1 s2 IH Hstep).
Qed.

(** ** Concrete games are games *)

Lemma legal_actionb_true (s : QwintoState) (p a : Z) :
  legal_actionb s p a = true -> legal_action s p a.
Proof.
  unfold legal_actionb, legal_action. destruct (LegalActions s p) as [l| |]; try discriminate.
  intros Hb. exists l. split; [reflexivity|]. apply bool_decide_eq_true in Hb. exact Hb.
Qed.

Lemma all_legal_true (s : QwintoState) (actions : list Z) :
  forall p0, all_legal s p0 actions = true ->
    forall (k : nat) a, actions !! k = Some a -> legal_action s (p0 + Z.of_nat k) a.
Proof.
  induction actions as [|a0 rest IH]; intros p0 Hall k a Hk.
  - rewrite lookup_nil in Hk. discriminate.
  - simpl in Hall. apply andb_prop in Hall as [Ha0 Hrest]. destruct k as [|k]; simpl in Hk.
    + inversion Hk; subst a. rewrite Z.add_0_r. apply legal_actionb_true, Ha0.
    + replace (p0 + Z.of_nat (S k)) with (p0 + 1 + Z.of_nat k) by lia.
      apply (IH (p0 + 1) Hrest k a Hk).
Qed.

Lemma play1_Step (s s' : QwintoState) (m : move) : play1 s m = Ok s' -> Step s s'.
Proof.
  destruct m as [a|actions]; simpl; intros Hrun; inv_ok Hrun.
  - apply (step_single s a s'); [|apply legal_actionb_true; assumption|exact Hrun].
    apply negb_true_iff, Z.eqb_neq in Hcheck. exact Hcheck.
  - apply (step_joint s actions s'); [assumption| |  |exact Hrun].
    + apply Z.eqb_eq. assumption.
    + intros p a Hp. apply (all_legal_true s actions 0 Hcheck1 p a Hp).
Qed.

Lemma play_Step (ms : list move) :
  forall s s', play s ms = Ok s' -> rtc Step s s'.
Proof.
  induction ms as [|m ms IH]; simpl; intros s s' Hrun.
  - inversion Hrun. apply rtc_refl.
  - inv_ok Hrun. apply (rtc_l _ _ x); [apply (play1_Step _ _ m); assumption|].
    apply IH, Hrun.
Qed.

Lemma play_reachable (n : Z) (ms : list move) (s : QwintoState) :
  1 <= n -> play (NewInitialState n) ms = Ok s -> reachable n s.
Proof. intros Hn Hrun. split; [exact Hn|]. apply (play_Step ms), Hrun. Qed.

(** ** The rows *)

Lemma StronglySorted_nonzero_values (l : list Z) :
  (forall (i j : nat) x y, (i < j)%nat -> l !! i = Some x -> l !! j = Some y ->
     x <> 0 -> y <> 0 -> x < y) ->
  StronglySorted Z.lt (nonzero_values l).
Proof.
  unfold nonzero_values. induction l as [|a l IH]; intros Hord.
  - constructor.
  - assert (Htail : StronglySorted Z.lt (filter (fun v => v <> 0) l)).
    { apply IH. intros i j x y Hij Hi Hj. apply (Hord (S i) (S j)); [lia|exact Hi|exact Hj]. }
    rewrite filter_cons. destruct (decide (a <> 0)) as [Ha|Ha]; [|exact Htail].
    constructor; [exact Htail|]. apply Forall_forall. intros y Hy.
    apply list_elem_of_filter in Hy as [Hy Hin].
    apply list_elem_of_lookup in Hin as [j Hj].
    apply (Hord 0%nat (S j) a y); [lia|reflexivity|exact Hj|exact Ha|exact Hy].
Qed.

Lemma row_values_lookup (s : QwintoState) (p r : Z) (i : nat) (x : Z) :
  row_values s p r !! i = Some x ->
  x = board_at s p (r * 9 + Z.of_nat i) /\ Z.of_nat i < 9.
Proof.
  unfold row_values, kDefaultNumFields. rewrite list_lookup_fmap.
  destruct (seqZ (r * 9) 9 !! i) as [k|] eqn:Hk; simpl; [|discriminate].
  apply lookup_seqZ in Hk as [-> Hi]. intros Hx. inversion Hx. split; [reflexivity|exact Hi].
Qed.

(** C4: in every state reachable by legal actions, the nonzero values of
    every row of every player, read left to right, are strictly
    increasing. *)
Theorem rows_strictly_increasing (n : Z) (s : QwintoState) (p r : Z) :
  reachable n s -> 0 <= p < n -> 0 <= r < kDefaultNumDice ->
  StronglySorted Z.lt (nonzero_values (row_values s p r)).
Proof.
  intros Hreach Hp Hr. unfold kDefaultNumDice in Hr.
  pose proof (Inv_boards _ _ (reachable_Inv n s Hreach) p Hp) as Hok.
  apply StronglySorted_nonzero_values. intros i j x y Hij Hi Hj.
  apply row_values_lookup in Hi as [-> Hi9]. apply row_values_lookup in Hj as [-> Hj9].
  apply (ok_rows _ Hok); try lia. euclid.
Qed.

(** C5: in every state reachable by legal actions, two fields of a player
    that the pairing table links never hold the same nonzero value. *)
Theorem paired_cells_differ (n : Z) (s : QwintoState) (p c d : Z) :
  reachable n s -> 0 <= p < n ->
  0 <= c < kDefaultNumDice * kDefaultNumFields -> d ∈ paired_cells c ->
  board_at s p c <> 0 -> board_at s p c <> board_at s p d.
Proof.
  intros Hreach Hp Hc Hd. unfold kDefaultNumDice, kDefaultNumFields in Hc.
  pose proof (Inv_boards _ _ (reachable_Inv n s Hreach) p Hp) as Hok.
  apply (ok_pairs _ Hok); [lia|exact Hd].
Qed.

(** ** What [DoApplyActions] checks *)

(** The loop ends in [Fatal] exactly when a sentinel is misused; a field
    is written whatever the board holds. *)
Lemma apply_actions_checks (cur outcome : Z) (actions : list Z) :
  forall (p0 : Z) (scores : list Z),
    0 <= p0 ->
    (p0 + Z.of_nat (length actions)) * kBoardSize <= Z.of_nat (length scores) ->
    (forall a, a ∈ actions -> a <> kActionSkip -> 0 <= a < kBoardSize) ->
    (forall p, p0 <= p < p0 + Z.of_nat (length actions) ->
       INT_MIN + 5 <= vget scores (p * kBoardSize + 27) <= INT_MAX) ->
    (sentinels_ok cur p0 actions = true ->
       exists scores', apply_actions cur outcome p0 actions scores = Ok scores') /\
    (sentinels_ok cur p0 actions = false ->
       apply_actions cur outcome p0 actions scores = Fatal).
Proof.
  unfold kBoardSize, kDefaultNumDice, kDefaultNumFields.
  induction actions as [|a rest IH]; intros p0 scores Hp0 Hlen Hrange Hmiss.
  - simpl. split; [eauto|discriminate].
  - simpl length in Hlen, Hmiss.
    assert (Hrest : forall a', a' ∈ rest -> a' <> kActionSkip -> 0 <= a' < 3 * 9 + 1)
      by (intros a' Ha'; apply Hrange; right; exact Ha').
    assert (Hnext : forall scores1 i x,
      scores1 = <[Z.to_nat (p0 * (3 * 9 + 1) + i) := x]> scores -> 0 <= i < 28 ->
      (sentinels_ok cur (p0 + 1) rest = true ->
         exists scores', apply_actions cur outcome (p0 + 1) rest scores1 = Ok scores') /\
      (sentinels_ok cur (p0 + 1) rest = false ->
         apply_actions cur outcome (p0 + 1) rest scores1 = Fatal)).
    { intros scores1 i x -> Hi. apply IH; [lia|rewrite length_insert; lia|exact Hrest|].
      intros p Hp. rewrite vget_insert by lia. case_tests; [lia|]. apply Hmiss. lia. }
    simpl. destruct (Z.eqb_spec a kActionSkip) as [Hs|Hs].
    + destruct (Z.eqb_spec p0 cur); simpl; [split; [discriminate|reflexivity]|].
      apply IH; [lia|lia|exact Hrest|]. intros p Hp. apply Hmiss. lia.
    + assert (Ha : 0 <= a < 28) by (apply Hrange; [left|exact Hs]).
      destruct (Z.eqb_spec a kActionMiss) as [Hm|Hm].
      * destruct (Z.eqb_spec p0 cur); simpl; [|split; [discriminate|reflexivity]].
        rewrite vadd_in_range.
        -- simpl. apply (Hnext _ a _ eq_refl Ha).
        -- sizes. lia.
        -- subst a. specialize (Hmiss p0 ltac:(lia)). sizes. lia.
      * rewrite vset_in_range by (sizes; lia). simpl. apply (Hnext _ a _ eq_refl Ha).
Qed.

Lemma sentinels_ok_pointwise (cur : Z) (actions : list Z) :
  forall p0,
    (forall (k : nat) a, actions !! k = Some a ->
       (a = kActionSkip -> p0 + Z.of_nat k <> cur) /\
       (a <> kActionSkip -> a = kActionMiss -> p0 + Z.of_nat k = cur)) ->
    sentinels_ok cur p0 actions = true.
Proof.
  induction actions as [|a rest IH]; intros p0 Hall; simpl; [reflexivity|].
  apply andb_true_intro. split.
  - destruct (Hall 0%nat a eq_refl) as [Hskip Hmiss]. rewrite Z.add_0_r in Hskip, Hmiss.
    case_tests; simpl; try reflexivity; exfalso; prop.
  - apply IH. intros k a' Hk. specialize (Hall (S k) a' Hk).
    replace (p0 + 1 + Z.of_nat k) with (p0 + Z.of_nat (S k)) by lia. exact Hall.
Qed.

Lemma DoApplyActions_checks_aux (s : QwintoState) (actions : list Z) :
  Z.of_nat (length actions) = num_players_ s ->
  phase_ s = kSubmitPoints ->
  Z.of_nat (length (scores_ s)) = num_players_ s * kBoardSize ->
  (forall a, a ∈ actions -> a <> kActionSkip -> 0 <= a < kBoardSize) ->
  (forall p, 0 <= p < num_players_ s -> INT_MIN + 5 <= board_at s p 27 <= INT_MAX) ->
  (sentinels_ok (current_player_ s) 0 actions = true ->
     exists s', DoApplyActions s actions = Ok s') /\
  (sentinels_ok (current_player_ s) 0 actions = false ->
     DoApplyActions s actions = Fatal).
Proof.
  intros Hlen Hphase Hsize Hrange Hmiss. unfold DoApplyActions.
  rewrite Hphase, (SPIEL_CHECK_true _ (proj2 (Z.eqb_eq _ _) Hlen)). simpl.
  destruct (apply_actions_checks (current_player_ s) (dice_outcome_ s) actions 0 (scores_ s))
    as [Hok Hfatal]; [lia|lia|exact Hrange| |].
  { intros p Hp. apply Hmiss. lia. }
  split.
  - intros Hs. destruct (Hok Hs) as [scores' ->]. simpl. eauto.
  - intros Hs. rewrite (Hfatal Hs). reflexivity.
Qed.

Lemma DoApplyActions_cells (s : QwintoState) (actions : list Z) :
  Z.of_nat (length actions) = num_players_ s ->
  phase_ s = kSubmitPoints ->
  Z.of_nat (length (scores_ s)) = num_players_ s * kBoardSize ->
  (forall a, a ∈ actions -> a <> kActionSkip -> 0 <= a < kBoardSize) ->
  (forall p, 0 <= p < num_players_ s -> INT_MIN + 5 <= board_at s p 27 <= INT_MAX) ->
  (sentinels_ok (current_player_ s) 0 actions = true ->
     exists s', DoApplyActions s actions = Ok s' /\
       forall (p : nat) a i, actions !! p = Some a -> 0 <= i < kBoardSize ->
         board_at s' (Z.of_nat p) i
         = submitted (dice_outcome_ s) a i (board_at s (Z.of_nat p) i)) /\
  (sentinels_ok (current_player_ s) 0 actions = false ->
     DoApplyActions s actions = Fatal).
Proof.
  intros Hlen Hphase Hsize Hrange Hmiss.
  destruct (DoApplyActions_checks_aux s actions Hlen Hphase Hsize Hrange Hmiss)
    as [Hok Hfatal].
  split; [|exact Hfatal]. intros Hs. destruct (Hok Hs) as [s' Hrun].
  exists s'. split; [exact Hrun|]. intros p a i Hp Hi.
  unfold DoApplyActions in Hrun. inv_ok Hrun. inversion Hrun; subst s'; clear Hrun.
  destruct (apply_actions_cells _ _ _ 0 _ _ ltac:(lia) Hrange Hrun0) as [_ Hcells].
  unfold board_at at 1. simpl. rewrite Hcells by lia.
  unfold action_of. destruct (Z.ltb_spec (Z.of_nat p) 0); [lia|].
  rewrite Z.sub_0_r, Nat2Z.id, Hp. reflexivity.
Qed.

(** The loop of [DoApplyActions] on any actions whose writes stay inside
    the vector. *)
Lemma apply_actions_flat (cur outcome : Z) (actions : list Z) :
  forall (p0 : Z) (scores : list Z),
    0 <= p0 ->
    (forall (k : nat) a, actions !! k = Some a -> a <> kActionSkip ->
       0 <= (p0 + Z.of_nat k) * kBoardSize + a < Z.of_nat (length scores)) ->
    INT_MIN + 5 <= outcome <= INT_MAX ->
    (p0 <= cur -> Forall (fun v => INT_MIN + 5 <= v <= INT_MAX) scores) ->
    (sentinels_ok cur p0 actions = false ->
       apply_actions cur outcome p0 actions scores = Fatal) /\
    (sentinels_ok cur p0 actions = true ->
       exists scores', apply_actions cur outcome p0 actions scores = Ok scores' /\
         length scores' = length scores /\
         forall j, 0 <= j ->
           vget scores' j = flat_after outcome p0 actions j (vget scores j)).
Proof.
  induction actions as [|a rest IH]; intros p0 scores Hp0 Hidx Hout Hint.
  - simpl. split; [discriminate|]. intros _. exists scores. repeat split; reflexivity.
  - assert (Hrest : forall scores1 : list Z, length scores1 = length scores ->
              forall (k : nat) a', rest !! k = Some a' -> a' <> kActionSkip ->
                0 <= (p0 + 1 + Z.of_nat k) * kBoardSize + a' < Z.of_nat (length scores1)).
    { intros scores1 Hlen k a' Hk Ha'. rewrite Hlen.
      replace (p0 + 1 + Z.of_nat k) with (p0 + Z.of_nat (S k)) by lia.
      apply Hidx; assumption. }
    assert (Hnext : forall x,
      (a =? kActionSkip) = false ->
      (p0 + 1 <= cur -> INT_MIN + 5 <= x <= INT_MAX) ->
      (sentinels_ok cur (p0 + 1) rest = false ->
         apply_actions cur outcome (p0 + 1) rest
           (<[Z.to_nat (p0 * kBoardSize + a) := x]> scores) = Fatal) /\
      (sentinels_ok cur (p0 + 1) rest = true ->
         exists scores',
           apply_actions cur outcome (p0 + 1) rest
             (<[Z.to_nat (p0 * kBoardSize + a) := x]> scores) = Ok scores' /\
           length scores' = length scores /\
           forall j, 0 <= j ->
             vget scores' j
             = flat_after outcome (p0 + 1) rest j
                 (if j =? p0 * kBoardSize + a then x else vget scores j))).
    { intros x Hs Hx. apply Z.eqb_neq in Hs.
      pose proof (Hidx 0%nat a eq_refl Hs) as Ha. rewrite Z.add_0_r in Ha.
      destruct (IH (p0 + 1) (<[Z.to_nat (p0 * kBoardSize + a) := x]> scores))
        as [Hfatal Hok].
      - lia.
      - apply Hrest, length_insert.
      - exact Hout.
      - intros Hle. apply Forall_insert; [apply Hint; lia|apply Hx, Hle].
      - split; [exact Hfatal|]. intros Hsent.
        destruct (Hok Hsent) as (scores' & Hrun & Hlen & Hcells).
        exists scores'. split; [exact Hrun|]. split; [rewrite Hlen; apply length_insert|].
        intros j Hj. rewrite (Hcells j Hj), vget_insert by lia. reflexivity. }
    simpl. destruct (a =? kActionSkip) eqn:Hs.
    + destruct (Z.eqb_spec p0 cur) as [Hcur|Hcur]; simpl.
      * split; [reflexivity|discriminate].
      * apply IH; [lia|apply Hrest; reflexivity|exact Hout|].
        intros Hle. apply Hint. lia.
    + assert (Ha : 0 <= p0 * kBoardSize + a < Z.of_nat (length scores)).
      { apply Z.eqb_neq in Hs. pose proof (Hidx 0%nat a eq_refl Hs) as Ha.
        rewrite Z.add_0_r in Ha. exact Ha. }
      destruct (a =? kActionMiss) eqn:Hm.
      * destruct (Z.eqb_spec p0 cur) as [Hcur|Hcur]; simpl.
        2: { split; [reflexivity|discriminate]. }
        assert (Hold : INT_MIN + 5 <= vget scores (p0 * kBoardSize + a) <= INT_MAX).
        { unfold vget. apply Forall_lookup_total_1; [apply Hint; lia|lia]. }
        rewrite vadd_in_range by (try exact Ha; sizes; lia). simpl.
        destruct (Hnext (vget scores (p0 * kBoardSize + a) + kDefaultMissPoints) eq_refl
                    ltac:(lia)) as [Hfatal Hok].
        split; [exact Hfatal|]. intros Hsent.
        destruct (Hok Hsent) as (scores' & Hrun & Hlen & Hcells).
        exists scores'. split; [exact Hrun|]. split; [exact Hlen|].
        intros j Hj. rewrite (Hcells j Hj).
        destruct (Z.eqb_spec j (p0 * kBoardSize + a)) as [->|_]; reflexivity.
      * rewrite vset_in_range by exact Ha. simpl.
        destruct (Hnext outcome eq_refl ltac:(intros _; exact Hout)) as [Hfatal Hok].
        split; [exact Hfatal|]. intros Hsent.
        destruct (Hok Hsent) as (scores' & Hrun & Hlen & Hcells).
        exists scores'. split; [exact Hrun|]. split; [exact Hlen|].
        intros j Hj. rewrite (Hcells j Hj). reflexivity.
Qed.

(** C1, as the code has it: [DoApplyActions] ends in a fatal error when
    the number of actions is not the number of players, when the phase is
    not [kSubmitPoints], when "skip" comes from the current player and when
    "miss" comes from another player.  These are its only checks: every
    other action [a] of player [p] is stored at index [p * kBoardSize + a]
    of [scores_] as it is (for [a] outside the board, in the board of
    another player).  Whether the field is free, of a selected color, in
    order in its row or unlike its paired fields plays no part in the
    result.  The writes are taken to stay inside [scores_] and the "miss"
    not to overflow, which C++ leaves undefined. *)
Theorem DoApplyActions_checks (s : QwintoState) (actions : list Z) :
  (Z.of_nat (length actions) <> num_players_ s -> DoApplyActions s actions = Fatal) /\
  (phase_ s <> kSubmitPoints -> DoApplyActions s actions = Fatal) /\
  (Z.of_nat (length actions) = num_players_ s ->
   phase_ s = kSubmitPoints ->
   (forall (p : nat) a, actions !! p = Some a -> a <> kActionSkip ->
      0 <= Z.of_nat p * kBoardSize + a < Z.of_nat (length (scores_ s))) ->
   Forall (fun v => INT_MIN + 5 <= v <= INT_MAX) (dice_outcome_ s :: scores_ s) ->
   (sentinels_ok (current_player_ s) 0 actions = false ->
      DoApplyActions s actions = Fatal) /\
   (sentinels_ok (current_player_ s) 0 actions = true ->
      exists s', DoApplyActions s actions = Ok s' /\
        length (scores_ s') = length (scores_ s) /\
        forall j, 0 <= j ->
          vget (scores_ s') j
          = flat_after (dice_outcome_ s) 0 actions j (vget (scores_ s) j))).
Proof.
  unfold DoApplyActions. split; [|split].
  - intros Hlen. apply Z.eqb_neq in Hlen. rewrite Hlen. reflexivity.
  - intros Hphase.
    destruct (Z.of_nat (length actions) =? num_players_ s); [|reflexivity].
    destruct (phase_ s); try reflexivity. contradiction.
  - intros Hlen Hphase Hidx Hint. apply Forall_cons in Hint as [Hout Hint].
    apply Z.eqb_eq in Hlen. rewrite Hlen, Hphase. cbn [SPIEL_CHECK Phase_eqb rbind].
    destruct (apply_actions_flat (current_player_ s) (dice_outcome_ s) actions 0 (scores_ s))
      as [Hfatal Hok]; [lia| |exact Hout|intros _; exact Hint|].
    { intros k a Hk Ha. rewrite Z.add_0_l. apply Hidx; assumption. }
    split.
    + intros Hsent. rewrite (Hfatal Hsent). reflexivity.
    + intros Hsent. destruct (Hok Hsent) as (scores' & Hrun & Hlen' & Hcells).
      rewrite Hrun. cbn [rbind]. eexists. split; [reflexivity|].
      split; [exact Hlen'|exact Hcells].
Qed.

(** C2, as the code has it: in the [kSubmitPoints] phase a field [i] is
    among the legal actions of a player only if every field to its left in
    its row is strictly less than the dice outcome (an empty field, which
    holds 0, passes) and every field to its right is empty or strictly
    greater than the dice outcome. *)
Theorem open_field_order (s : QwintoState) (p i : Z) :
  phase_ s = kSubmitPoints -> 0 <= p ->
  0 <= i < kDefaultNumDice * kDefaultNumFields -> i <> kActionSkip ->
  legal_action s p i ->
  (forall k, 0 <= k < i -> k / 9 = i / 9 -> board_at s p k < dice_outcome_ s) /\
  (forall k, i < k < 27 -> k / 9 = i / 9 ->
     board_at s p k = 0 \/ dice_outcome_ s < board_at s p k).
Proof.
  intros Hphase Hp Hi Hskip Hlegal. sizes.
  apply legal_action_player in Hlegal as (_ & _ & Hin); [|exact Hp].
  apply (movelist_submit s p i Hphase) in Hin as [[_ Hopen]|Hsent].
  - destruct (field_is_open_inv s p i Hi Hopen) as (_ & _ & Hleft & Hright & _).
    split; intros k Hk Hrow; [apply Hleft|apply Hright]; try lia;
      euclid.
  - sizes. destruct (p =? current_player_ s); [lia|contradiction].
Qed.

(** ** The frame of [DoApplyActions] *)

(** C8: a legal joint action in the [kSubmitPoints] phase is applied; it
    sets the field that a player submits to the dice outcome, adds the
    penalty to the miss slot of the current player who submits "miss", and
    leaves every other cell of every board as it was; the phase becomes
    [kSelectDice] and the turn passes to the next player. *)
Theorem DoApplyActions_frame (n : Z) (s : QwintoState) (actions : list Z) :
  reachable n s -> IsSimultaneousNode s = true ->
  legal_joint_action s actions ->
  kActionSkip < 0 \/ kActionMiss < kActionSkip ->
  exists s', DoApplyActions s actions = Ok s' /\
    phase_ s' = kSelectDice /\
    current_player_ s' = (current_player_ s + 1) mod n /\
    player_ s' = current_player_ s' /\
    forall (p : nat) a i, actions !! p = Some a -> 0 <= i < kBoardSize ->
      board_at s' (Z.of_nat p) i
      = submitted (dice_outcome_ s) a i (board_at s (Z.of_nat p) i).
Proof.
  intros Hreach Hsim Hlegal Hskip. pose proof (reachable_Inv n s Hreach) as HI.
  destruct (simultaneous_node_inv n s HI Hsim) as (Hlive & Hphase & Hout).
  pose proof (Inv_players _ _ HI) as Hn. pose proof (Inv_current _ _ HI) as Hcur.
  destruct (DoApplyActions_cells s actions) as [Hok _].
  - apply Hlegal.
  - exact Hphase.
  - rewrite Hn. apply (Inv_length _ _ HI).
  - apply (legal_joint_action_range n s actions HI Hsim Hlegal).
  - intros p Hp. rewrite Hn in Hp.
    pose proof (ok_miss _ (Inv_boards _ _ HI p Hp)). sizes. lia.
  - destruct Hok as (s' & Hrun & Hcells).
    + apply sentinels_ok_pointwise. intros k a Hk.
      destruct Hlegal as [_ Hlegal]. specialize (Hlegal k a Hk).
      apply legal_action_player in Hlegal as (_ & _ & Hin); [|lia].
      apply (movelist_submit s _ a Hphase) in Hin. sizes.
      destruct Hin as [[Ha _]|Ha]; [split; lia|].
      destruct (Z.eqb_spec (Z.of_nat k) (current_player_ s)); split; lia.
    + exists s'. split; [exact Hrun|].
      unfold DoApplyActions in Hrun. inv_ok Hrun. inversion Hrun; subst s'. simpl.
      split; [reflexivity|]. split; [|split; [reflexivity|exact Hcells]].
      rewrite Hn. apply Z.rem_mod_nonneg; lia.
Qed.

(** ** Terminal states *)

Lemma IsTerminal_true (s : QwintoState) :
  IsTerminal s = true <->
  exists p, 0 <= p < num_players_ s /\ board_at s p 27 <= -20.
Proof.
  unfold IsTerminal. rewrite existsb_exists. split.
  - intros (p & Hin & Hle). apply list_elem_of_In, elem_of_seqZ in Hin.
    exists p. rewrite board_at_miss. apply Z.leb_le in Hle. sizes. split; lia.
  - intros (p & Hp & Hle). exists p. rewrite board_at_miss in Hle.
    split; [apply list_elem_of_In, elem_of_seqZ; lia|]. apply Z.leb_le. exact Hle.
Qed.

Lemma submitted_miss_le (outcome a old : Z) :
  (a <> kActionSkip -> 0 <= a < kBoardSize) ->
  submitted outcome a 27 old <= old.
Proof. unfold submitted. sizes. intros Ha. case_tests; lia. Qed.

(** A single action does not touch the boards, and a joint action of
    sentinels and fields only lowers miss slots. *)
Lemma Applied_terminal (s s' : QwintoState) :
  IsTerminal s = true -> Applied s s' -> IsTerminal s' = true.
Proof.
  intros Hterm [a s1 Hnsim Hrun|actions s1 Hrange Hrun].
  - assert (Hsame : scores_ s1 = scores_ s /\ num_players_ s1 = num_players_ s).
    { unfold DoApplyAction in Hrun. rewrite Hnsim in Hrun.
      destruct (IsChanceNode s); inv_ok Hrun;
        [|destruct (phase_ s); try destruct (a =? 0);
          try destruct ((0 <=? a) && (a <=? 7)); inv_ok Hrun];
        try discriminate; inversion Hrun; split; reflexivity. }
    unfold IsTerminal in *. destruct Hsame as [-> ->]. exact Hterm.
  - apply IsTerminal_true in Hterm as (p & Hp & Hle). apply IsTerminal_true.
    unfold DoApplyActions in Hrun. inv_ok Hrun. inversion Hrun; subst s1; clear Hrun.
    destruct (apply_actions_cells _ _ _ 0 _ _ ltac:(lia) Hrange Hrun0) as [_ Hcells].
    exists p. simpl. split; [exact Hp|]. unfold board_at in *. simpl.
    rewrite Hcells by (sizes; lia).
    destruct (action_of 0 actions p) as [a|] eqn:Ha; simpl; [|exact Hle].
    assert (Hin : a ∈ actions).
    { unfold action_of in Ha. destruct (p <? 0); [discriminate|].
      apply list_elem_of_lookup. eauto. }
    pose proof (submitted_miss_le (dice_outcome_ s) a
                  (vget (scores_ s) (p * kBoardSize + 27)) (Hrange a Hin)). lia.
Qed.

(** Every move of a game is an application of actions. *)
Lemma Step_Applied (n : Z) (s s' : QwintoState) : Inv n s -> Step s s' -> Applied s s'.
Proof.
  intros HI [a s1 Hnsim Hlegal Hrun|actions s1 Hsim Hlen Hlegal Hrun].
  - apply (applied_single s a s1); [|exact Hrun].
    unfold IsSimultaneousNode. apply Z.eqb_neq. exact Hnsim.
  - apply (applied_joint s actions s1); [|exact Hrun].
    apply (legal_joint_action_range n s actions HI Hsim). split; assumption.
Qed.

Lemma terminal_forever (n : Z) (s s' : QwintoState) :
  reachable n s -> IsTerminal s = true -> rtc Step s s' -> IsTerminal s' = true.
Proof.
  intros Hreach Hterm Hsteps. pose proof (reachable_Inv n s Hreach) as HI.
  induction Hsteps as [s|s s1 s2 Hstep Hsteps IH]; [exact Hterm|].
  apply IH.
  - destruct Hreach as [Hn Hr]. split; [exact Hn|]. eapply rtc_r; eassumption.
  - apply (Applied_terminal s s1 Hterm), (Step_Applied n), Hstep. exact HI.
  - apply (Inv_Step n s s1 HI Hstep).
Qed.

(** C7: a terminal state stays terminal under every application of
    actions, legal or not; every legal move of a game is such an
    application ([Step_Applied]), so that [IsTerminal] never turns from
    true to false in a game ([terminal_forever]). *)
Theorem terminal_stays_terminal (s s' : QwintoState) :
  IsTerminal s = true -> Applied s s' -> IsTerminal s' = true.
Proof. apply Applied_terminal. Qed.

(** ** Chance nodes *)


Lemma num_dice_range (s : QwintoState) :
  1 <= dice_ s <= 7 -> 1 <= num_dice s <= 3.
Proof.
  intros Hd. unfold num_dice.
  assert (Hcases : dice_ s ∈ [1; 2; 3; 4; 5; 6; 7]) by (apply (elem_of_seqZ 1 7); lia).
  repeat (apply elem_of_cons in Hcases as [->|Hcases]); [..|inversion Hcases];
    vm_compute; split; discriminate.
Qed.

Lemma ChanceOutcomes_Ok (s : QwintoState) :
  IsChanceNode s = true -> 1 <= num_dice s <= 3 ->
  ChanceOutcomes s = Ok (dice_sum_pmf (Z.to_nat (num_dice s))).
Proof.
  intros Hch Hn. unfold ChanceOutcomes. rewrite Hch. simpl.
  rewrite (SPIEL_CHECK_true (1 <=? num_dice s)) by (apply Z.leb_le; lia). simpl.
  rewrite (SPIEL_CHECK_true (num_dice s <=? kDefaultNumDice)) by (apply Z.leb_le; sizes; lia).
  simpl. f_equal.
  assert (Hcases : num_dice s ∈ [1; 2; 3]) by (apply (elem_of_seqZ 1 3); lia).
  repeat (apply elem_of_cons in Hcases as [->|Hcases]); [..|inversion Hcases];
    vm_compute; reflexivity.
Qed.


Lemma Qnearb_true (k : Z) (x y : Q) : Qnearb k x y = true -> Qnear k x y.
Proof. apply Qle_bool_iff. Qed.






(** ** The order of the legal actions *)






(** ** The observation *)

(** C10: for every state of a game and every player index,
    [ObservationTensor] writes 3 values for the phase, one for each
    possible number of rolls, 3 for the dice, 18 for the outcome, one for
    each player and the 28 cells of each board; this is the declared size,
    and the final check passes. *)
Theorem ObservationTensor_length (n : Z) (s : QwintoState) (player : Z) :
  reachable n s -> 0 <= player < n -> 0 <= kDefaultNumDiceRolls ->
  exists values, ObservationTensor s player = Ok values /\
    Z.of_nat (length values)
    = 3 + kDefaultNumDiceRolls + 3 + 18 + n + n * (kDefaultNumDice * kDefaultNumFields + 1) /\
    Z.of_nat (length values) = ObservationTensorSize n.
Proof.
  intros Hreach Hp Hrolls. pose proof (reachable_Inv n s Hreach) as HI.
  pose proof (Inv_players _ _ HI) as Hn. pose proof (Inv_length _ _ HI) as Hlen.
  assert (Hsize : Z.of_nat (length (observation_values s))
                  = 3 + kDefaultNumDiceRolls + 3 + 18 + n + n * 28).
  { unfold observation_values.
    rewrite !length_app, !length_map, !length_seqZ, Hn. simpl length. sizes. lia. }
  assert (Hdecl : ObservationTensorSize n = 3 + kDefaultNumDiceRolls + 3 + 18 + n + n * 28).
  { unfold ObservationTensorSize, ObservationTensorShape. simpl. sizes. lia. }
  exists (observation_values s). unfold ObservationTensor.
  rewrite (SPIEL_CHECK_true (0 <=? player)) by (apply Z.leb_le; lia). cbn [rbind].
  rewrite (SPIEL_CHECK_true (player <? num_players_ s)) by (apply Z.ltb_lt; lia).
  cbn [rbind].
  rewrite SPIEL_CHECK_true by (apply Z.eqb_eq; rewrite Hn; lia). cbn [rbind].
  split; [reflexivity|]. sizes. split; lia.
Qed.

(** ** The returns *)

Lemma filled_pos (v : Z) : 0 <= v -> filled v = (0 <? v).
Proof. intros Hv. unfold filled. case_tests; try lia; reflexivity. Qed.

Lemma count_filled (l : list Z) :
  Forall (fun v => 0 <= v) l ->
  length (filter (fun v => filled v = true) l) = length (filter (fun a => 0 < a) l).
Proof.
  induction 1 as [|a l Ha Hl IH]; [reflexivity|]. rewrite !filter_cons.
  rewrite (filled_pos a Ha).
  destruct (decide ((0 <? a) = true)) as [Hpos|Hpos], (decide (0 < a)) as [Hlt|Hlt];
    simpl; try congruence.
  - apply Z.ltb_lt in Hpos. contradiction.
  - apply Z.ltb_lt in Hlt. contradiction.
Qed.

Lemma forallb_filled (l : list Z) :
  Forall (fun v => 0 <= v) l ->
  forallb filled l
  = (Z.of_nat (length (filter (fun a => 0 < a) l)) =? Z.of_nat (length l)).
Proof.
  induction 1 as [|a l Ha Hl IH]; [reflexivity|]. simpl forallb.
  rewrite filter_cons, IH, (filled_pos a Ha).
  pose proof (length_filter (fun a => 0 < a) l) as Hle.
  destruct (decide (0 < a)) as [Hlt|Hlt]; simpl length; case_tests; simpl; lia.
Qed.

(** A row block of [Returns] computes the score of the row. *)
Lemma row_return_score (b : Z -> Z) (start : Z) :
  (forall k, 0 <= k < 9 -> 0 <= b (start + k)) ->
  row_return (fun k => b (start + k)) = row_score (map b (seqZ start 9)).
Proof.
  intros Hb.
  assert (Hnonneg : Forall (fun v => 0 <= v) (map b (seqZ start 9))).
  { apply Forall_forall. intros v Hv. apply list_elem_of_fmap in Hv as (k & -> & Hk).
    apply elem_of_seqZ in Hk. replace k with (start + (k - start)) by lia. apply Hb. lia. }
  assert (Hmap : map (fun k => b (start + k)) (seqZ 0 kDefaultNumFields)
                 = map b (seqZ start 9)).
  { replace (seqZ start 9) with (map (Z.add start) (seqZ 0 9))
      by (etransitivity; [exact (fmap_add_seqZ start 0 9)|f_equal; lia]).
    symmetry. apply map_map. }
  unfold row_return, row_score.
  rewrite (forallb_filled _ Hnonneg), (count_filled _ Hnonneg), Hmap.
  change (Z.of_nat (length (map b (seqZ start 9)))) with kDefaultNumFields.
  change (map b (seqZ start 9) !!! 8%nat) with (b (8 + start)).
  replace (start + (kDefaultNumFields - 1)) with (8 + start) by (sizes; lia).
  reflexivity.
Qed.

Lemma player_return_board_score (s : QwintoState) (p : Z) :
  (forall i, 0 <= i < 27 -> 0 <= board_at s p i) ->
  player_return s p = board_score (board s p).
Proof.
  intros Hb. unfold player_return, board_score, board.
  set (b := board_at s p) in *.
  change (row_return b) with (row_return (fun k => b (0 + k))).
  rewrite !row_return_score by (intros k Hk; apply Hb; sizes; lia).
  change (take 9 (map b (seqZ 0 kBoardSize))) with (map b (seqZ 0 9)).
  change (take 9 (drop 9 (map b (seqZ 0 kBoardSize))))
    with (map b (seqZ kDefaultNumFields 9)).
  change (take 9 (drop 18 (map b (seqZ 0 kBoardSize))))
    with (map b (seqZ (kDefaultNumFields + kDefaultNumFields) 9)).
  change (foldr Z.add 0 (map (diagonal_score (map b (seqZ 0 kBoardSize))) diagonals))
    with ((if filled (b 0) && (filled (b 10) && (filled (b 20) && true)) then b 20 else 0)
          + ((if filled (b 1) && (filled (b 11) && (filled (b 21) && true)) then b 1 else 0)
          + ((if filled (b 4) && (filled (b 14) && (filled (b 24) && true)) then b 4 else 0)
          + ((if filled (b 5) && (filled (b 15) && (filled (b 25) && true)) then b 15 else 0)
          + ((if filled (b 6) && (filled (b 16) && (filled (b 26) && true)) then b 26 else 0)
          + 0))))).
  change (map b (seqZ 0 kBoardSize) !!! 27%nat) with (b 27).
  change (b (kDefaultNumDice * kDefaultNumFields)) with (b 27).
  rewrite !filled_pos by (apply Hb; lia). rewrite !andb_true_r, !andb_assoc. lia.
Qed.

(** C6: [Returns] gives every player the score of that player's own board:
    for each row its last field when the row is full and the number of its
    filled fields otherwise, for each diagonal whose three fields are
    filled the value of its bonus field, and the miss slot, which is never
    positive; before the end of the game it gives 0 to every player. *)
Theorem Returns_board_scores (n : Z) (s : QwintoState) :
  reachable n s ->
  Returns s
  = (if IsTerminal s then map (fun p => board_score (board s p)) (seqZ 0 n)
     else replicate (Z.to_nat n) 0) /\
  forall p, 0 <= p < n -> board_at s p 27 <= 0.
Proof.
  intros Hreach. pose proof (reachable_Inv n s Hreach) as HI. split.
  - unfold Returns. rewrite (Inv_players _ _ HI).
    destruct (IsTerminal s); simpl; [|reflexivity].
    apply map_ext_in. intros p Hp. apply list_elem_of_In, elem_of_seqZ in Hp.
    apply player_return_board_score. intros i Hi.
    apply (ok_fields _ (Inv_boards _ _ HI p ltac:(lia))), Hi.
  - intros p Hp. apply (ok_miss _ (Inv_boards _ _ HI p Hp)).
Qed.

(** * More of the code *)

(** ** Legal single actions *)

(** A legal action of the player to move is applied. *)
Lemma legal_single_applies (n : Z) (s : QwintoState) (a : Z) :
  Inv n s -> CurrentPlayer s <> kSimultaneousPlayerId ->
  legal_action s (CurrentPlayer s) a ->
  IsTerminal s = false /\ exists s', DoApplyAction s a = Ok s'.
Proof.
  intros HI Hnsim Hlegal.
  destruct (IsTerminal s) eqn:Hterm.
  { rewrite (CurrentPlayer_terminal s Hterm) in Hlegal.
    destruct Hlegal as (l & Hl & Ha). unfold LegalActions in Hl. simpl in Hl.
    inversion Hl; subst l. inversion Ha. }
  split; [reflexivity|].
  rewrite (CurrentPlayer_live s Hterm) in Hlegal, Hnsim.
  pose proof (Inv_turn _ _ HI) as Ht. pose proof (Inv_current _ _ HI) as Hc.
  pose proof (Inv_players _ _ HI) as Hn.
  unfold DoApplyAction, IsSimultaneousNode, IsChanceNode.
  rewrite (CurrentPlayer_live s Hterm). unfold turn_consistent in Ht.
  destruct (Z.eqb_spec (player_ s) kSimultaneousPlayerId) as [|_]; [contradiction|].
  unfold kSimultaneousPlayerId, kChancePlayerId in *.
  destruct (Z.eqb_spec (player_ s) (-1)) as [Hchance|Hplayer].
  - destruct (phase_ s); [lia| |lia]. simpl. eauto.
  - assert (Hp : 0 <= player_ s < num_players_ s) by (destruct (phase_ s); lia).
    apply legal_action_player in Hlegal as (_ & _ & Ha); [|lia].
    rewrite (SPIEL_CHECK_true (0 <=? player_ s)) by (apply Z.leb_le; lia).
    rewrite (SPIEL_CHECK_true (player_ s <? num_players_ s)) by (apply Z.ltb_lt; lia).
    cbn [rbind]. unfold movelist in Ha. destruct (phase_ s); [| |lia].
    + assert (Hr : (0 <=? a) && (a <=? 7) = true).
      { repeat (apply elem_of_cons in Ha as [->|Ha]); [reflexivity..|inversion Ha]. }
      rewrite Hr. eauto.
    + destruct (Z.eqb_spec a 0) as [->|Ha0]; [|eauto].
      destruct (Z.ltb_spec (num_dice_rolls_ s) kDefaultNumDiceRolls); simpl; [eauto|].
      apply list_elem_of_singleton in Ha. discriminate.
Qed.

(** A single action leaves the boards, the players and the turn alone. *)
Lemma DoApplyAction_frame (s s' : QwintoState) (a : Z) :
  IsSimultaneousNode s = false -> DoApplyAction s a = Ok s' ->
  scores_ s' = scores_ s /\ num_players_ s' = num_players_ s /\
  current_player_ s' = current_player_ s.
Proof.
  intros Hnsim Hrun. unfold DoApplyAction in Hrun. rewrite Hnsim in Hrun.
  destruct (IsChanceNode s); inv_ok Hrun;
    [|destruct (phase_ s); try destruct (a =? 0);
      try destruct ((0 <=? a) && (a <=? 7)); inv_ok Hrun];
    try discriminate; inversion Hrun; repeat split; reflexivity.
Qed.

Lemma live_not_simultaneous (s : QwintoState) :
  CurrentPlayer s <> kSimultaneousPlayerId -> IsSimultaneousNode s = false.
Proof. intros Hne. unfold IsSimultaneousNode. apply Z.eqb_neq, Hne. Qed.

Lemma IsTerminal_scores (s s' : QwintoState) :
  scores_ s' = scores_ s -> num_players_ s' = num_players_ s ->
  IsTerminal s' = IsTerminal s.
Proof. unfold IsTerminal. intros -> ->. reflexivity. Qed.

(** ** The second invariant *)

Lemma miss_values (x : Z) :
  x ∈ [0; -5; -10; -15; -20] <-> x = 0 \/ x = -5 \/ x = -10 \/ x = -15 \/ x = -20.
Proof. rewrite !elem_of_cons, elem_of_nil. prop. Qed.

Lemma submitted_miss_cases (outcome a old : Z) :
  (a <> kActionSkip -> 0 <= a < kBoardSize) ->
  submitted outcome a 27 old = old \/
  (a <> kActionSkip /\ a = kActionMiss /\ submitted outcome a 27 old = old + -5).
Proof.
  unfold submitted. intros Ha.
  destruct (Z.eqb_spec a kActionSkip) as [|Hs]; [left; reflexivity|].
  specialize (Ha Hs). destruct (Z.eqb_spec a kActionMiss) as [Hm|Hm].
  - right. split; [exact Hs|]. split; [exact Hm|]. reflexivity.
  - left. destruct (Z.eqb_spec 27 a) as [Heq|]; [|reflexivity].
    exfalso. apply Hm. rewrite <- Heq. reflexivity.
Qed.

Lemma Inv2_init (n : Z) : 1 <= n -> Inv2 (NewInitialState n).
Proof.
  intros Hn. split.
  - intros p Hp. simpl in Hp. apply miss_values. left.
    unfold board_at, NewInitialState, vget. simpl.
    apply lookup_total_replicate_2. sizes. lia.
  - simpl. lia.
  - reflexivity.
Qed.

Lemma Inv2_single (n : Z) (s s' : QwintoState) (a : Z) :
  Inv n s -> Inv2 s -> CurrentPlayer s <> kSimultaneousPlayerId ->
  legal_action s (CurrentPlayer s) a ->
  DoApplyAction s a = Ok s' -> Inv2 s'.
Proof.
  intros HI [Hmiss Hrolls Hend] Hnsim Hlegal Hrun.
  destruct (legal_single_applies n s a HI Hnsim Hlegal) as [Hlive _].
  destruct (DoApplyAction_frame s s' a (live_not_simultaneous s Hnsim) Hrun)
    as (Hscores & Hplayers & _).
  split.
  - intros p Hp. unfold board_at. rewrite Hscores. apply Hmiss. lia.
  - unfold DoApplyAction in Hrun. rewrite (live_not_simultaneous s Hnsim) in Hrun.
    destruct (IsChanceNode s); inv_ok Hrun;
      [|destruct (phase_ s); try destruct (a =? 0);
        try destruct ((0 <=? a) && (a <=? 7)); inv_ok Hrun];
      try discriminate; inversion Hrun; simpl; lia.
  - rewrite (IsTerminal_scores s s' Hscores Hplayers), Hlive. discriminate.
Qed.

Lemma Inv2_joint (n : Z) (s s' : QwintoState) (actions : list Z) :
  Inv n s -> Inv2 s -> IsSimultaneousNode s = true ->
  legal_joint_action s actions ->
  DoApplyActions s actions = Ok s' -> Inv2 s'.
Proof.
  intros HI [Hmiss Hrolls Hend] Hsim Hlegal Hrun.
  destruct (simultaneous_node_inv n s HI Hsim) as (Hlive & Hphase & Hout).
  pose proof (legal_joint_action_range n s actions HI Hsim Hlegal) as Hrange.
  pose proof (legal_joint_action_inv n s actions HI Hsim Hlegal) as Hact.
  pose proof (Inv_players _ _ HI) as Hn.
  unfold DoApplyActions in Hrun. inv_ok Hrun. inversion Hrun; subst s'; clear Hrun.
  destruct (apply_actions_cells _ _ _ 0 _ _ ltac:(lia) Hrange Hrun0) as [_ Hcells].
  split; simpl.
  - intros p Hp. rewrite Hn in Hp. destruct (Hact p Hp) as (a & Ha & Hin).
    unfold board_at at 1. simpl. rewrite Hcells, Ha by (sizes; lia). simpl.
    assert (Hin' : a ∈ actions).
    { unfold action_of in Ha. destruct (p <? 0); [discriminate|].
      apply list_elem_of_lookup. eauto. }
    fold (board_at s p 27).
    pose proof (proj1 (IsTerminal_false s) Hlive p ltac:(lia)) as Hgt.
    pose proof (proj1 (miss_values _) (Hmiss p ltac:(lia))) as Hold.
    apply miss_values.
    destruct (submitted_miss_cases (dice_outcome_ s) a (board_at s p 27) (Hrange a Hin'))
      as [->|(_ & _ & ->)]; lia.
  - exact Hrolls.
  - reflexivity.
Qed.

Lemma Inv2_Step (n : Z) (s s' : QwintoState) :
  Inv n s -> Inv2 s -> Step s s' -> Inv2 s'.
Proof.
  intros HI HI2 [a s1 Hnsim Hlegal Hrun|actions s1 Hsim Hlen Hlegal Hrun].
  - exact (Inv2_single n s s1 a HI HI2 Hnsim Hlegal Hrun).
  - apply (Inv2_joint n s s1 actions HI HI2 Hsim); [split; assumption|exact Hrun].
Qed.

Lemma reachable_Inv2 (n : Z) (s : QwintoState) : reachable n s -> Inv2 s.
Proof.
  intros [Hn Hrtc]. revert s Hrtc. apply rtc_ind_r.
  - apply Inv2_init, Hn.
  - intros s1 s2 Hreach Hstep IH.
    assert (HI : Inv n s1) by (apply reachable_Inv; split; assumption).
    exact (Inv2_Step n s1 s2 HI IH Hstep).
Qed.

(** ** Legal actions are applied *)

Lemma legal_joint_applies (n : Z) (s : QwintoState) (actions : list Z) :
  Inv n s -> IsSimultaneousNode s = true -> legal_joint_action s actions ->
  kActionSkip < 0 \/ kActionMiss < kActionSkip ->
  exists s', DoApplyActions s actions = Ok s'.
Proof.
  intros HI Hsim Hlegal Hskip.
  destruct (simultaneous_node_inv n s HI Hsim) as (Hlive & Hphase & Hout).
  pose proof (Inv_players _ _ HI) as Hn.
  destruct (DoApplyActions_checks_aux s actions) as [Hok _].
  - apply Hlegal.
  - exact Hphase.
  - rewrite Hn. apply (Inv_length _ _ HI).
  - apply (legal_joint_action_range n s actions HI Hsim Hlegal).
  - intros p Hp. rewrite Hn in Hp.
    pose proof (ok_miss _ (Inv_boards _ _ HI p Hp)). sizes. lia.
  - apply Hok. apply sentinels_ok_pointwise. intros k a Hk.
    destruct Hlegal as [_ Hlegal]. specialize (Hlegal k a Hk).
    apply legal_action_player in Hlegal as (_ & _ & Hin); [|lia].
    apply (movelist_submit s _ a Hphase) in Hin. sizes.
    destruct Hin as [[Ha _]|Ha]; [split; lia|].
    destruct (Z.eqb_spec (Z.of_nat k) (current_player_ s)); split; lia.
Qed.

(** X1: every action that [LegalActions] returns for the player to move,
    a player or chance, is applied by [DoApplyAction] without a fatal
    error, and the boards stay as they are. *)
Theorem legal_single_action_applies (n : Z) (s : QwintoState) (a : Z) :
  reachable n s -> CurrentPlayer s <> kSimultaneousPlayerId ->
  legal_action s (CurrentPlayer s) a ->
  exists s', DoApplyAction s a = Ok s' /\ scores_ s' = scores_ s.
Proof.
  intros Hreach Hnsim Hlegal. pose proof (reachable_Inv n s Hreach) as HI.
  destruct (legal_single_applies n s a HI Hnsim Hlegal) as [_ [s' Hrun]].
  exists s'. split; [exact Hrun|].
  apply (DoApplyAction_frame s s' a (live_not_simultaneous s Hnsim) Hrun).
Qed.

Lemma miss_and_skip_legal (n : Z) (s : QwintoState) :
  Inv n s -> IsSimultaneousNode s = true -> legal_joint_action s (miss_and_skip s).
Proof.
  intros HI Hsim. destruct (simultaneous_node_inv n s HI Hsim) as (Hlive & Hphase & _).
  pose proof (Inv_players _ _ HI) as Hn. pose proof (Inv_current _ _ HI) as Hc.
  unfold miss_and_skip. split.
  - rewrite length_map, length_seqZ. lia.
  - intros p a Hp. rewrite list_lookup_fmap in Hp.
    destruct (seqZ 0 (num_players_ s) !! p) as [q|] eqn:Hq; [|discriminate].
    apply lookup_seqZ in Hq as [-> Hlt]. simpl in Hp. inversion Hp; subst a; clear Hp.
    rewrite Z.add_0_l. exists (merge_sort Z.le (movelist s (Z.of_nat p))). split.
    + rewrite LegalActions_player by lia. rewrite Hlive. reflexivity.
    + apply elem_of_merge_sort. unfold movelist. rewrite Hphase.
      apply elem_of_app. right. apply list_elem_of_singleton. reflexivity.
Qed.

(** X2: a game that is not over is never stuck: in every reachable state
    that is not terminal some legal move is applied. *)
Theorem game_never_stuck (n : Z) (s : QwintoState) :
  reachable n s -> IsTerminal s = false ->
  kActionSkip < 0 \/ kActionMiss < kActionSkip ->
  exists s', Step s s'.
Proof.
  intros Hreach Hlive Hskip. pose proof (reachable_Inv n s Hreach) as HI.
  pose proof (Inv_turn _ _ HI) as Ht. pose proof (Inv_current _ _ HI) as Hc.
  pose proof (Inv_players _ _ HI) as Hn.
  assert (Hsingle : forall a, player_ s <> kSimultaneousPlayerId ->
            legal_action s (player_ s) a -> exists s', Step s s').
  { intros a Hnsim Hlegal. rewrite <- (CurrentPlayer_live s Hlive) in Hnsim, Hlegal.
    destruct (legal_single_applies n s a HI Hnsim Hlegal) as [_ [s' Hrun]].
    exists s'. apply (step_single s a s'); assumption. }
  assert (Hmove : forall a, 0 <= player_ s < n -> a ∈ movelist s (player_ s) ->
            exists s', Step s s').
  { intros a Hp Ha. apply (Hsingle a); [unfold kSimultaneousPlayerId; lia|].
    exists (merge_sort Z.le (movelist s (player_ s))). split.
    - rewrite LegalActions_player by lia. rewrite Hlive. reflexivity.
    - apply elem_of_merge_sort, Ha. }
  unfold turn_consistent, kChancePlayerId, kSimultaneousPlayerId in *.
  destruct (phase_ s) eqn:Hphase.
  - apply (Hmove kOrange); [lia|]. unfold movelist. rewrite Hphase. left.
  - destruct Ht as [Hdice [Hch|[Hp _]]].
    + assert (Hnode : IsChanceNode s = true).
      { unfold IsChanceNode. rewrite (CurrentPlayer_live s Hlive), Hch. reflexivity. }
      pose proof (num_dice_range s Hdice) as Hnd.
      apply (Hsingle 3); [lia|]. rewrite Hch.
      exists (map fst (dice_sum_pmf (Z.to_nat (num_dice s)))). split.
      * unfold LegalActions, LegalChanceOutcomes. simpl.
        rewrite (ChanceOutcomes_Ok s Hnode Hnd). reflexivity.
      * assert (Hcases : num_dice s ∈ [1; 2; 3]) by (apply (elem_of_seqZ 1 3); lia).
        repeat (apply elem_of_cons in Hcases as [->|Hcases]); [..|inversion Hcases];
          apply (bool_decide_unpack _); vm_compute; exact I.
    + apply (Hmove 1); [lia|]. unfold movelist. rewrite Hphase.
      apply elem_of_app. right. left.
  - destruct Ht as (_ & Hp & _).
    assert (Hsim : IsSimultaneousNode s = true).
    { unfold IsSimultaneousNode. rewrite (CurrentPlayer_live s Hlive), Hp. reflexivity. }
    pose proof (miss_and_skip_legal n s HI Hsim) as Hlegal.
    destruct (legal_joint_applies n s _ HI Hsim Hlegal Hskip) as [s' Hrun].
    exists s'. apply (step_joint s (miss_and_skip s) s'); [exact Hsim| | |exact Hrun];
      apply Hlegal.
Qed.

(** ** Who is to move *)

(** X3: in every reachable state the current player is a player index;
    a terminal state is in the [kSelectDice] phase and [CurrentPlayer] is the
    terminal sentinel; otherwise [CurrentPlayer] is the current player in
    the [kSelectDice] phase, chance or the current player in the
    [kRollDice] phase, and the simultaneous sentinel in the
    [kSubmitPoints] phase. *)
Theorem CurrentPlayer_by_phase (n : Z) (s : QwintoState) :
  reachable n s ->
  0 <= current_player_ s < n /\
  (IsTerminal s = true ->
     phase_ s = kSelectDice /\ CurrentPlayer s = kTerminalPlayerId) /\
  (IsTerminal s = false ->
     match phase_ s with
     | kSelectDice => CurrentPlayer s = current_player_ s
     | kRollDice =>
         CurrentPlayer s = kChancePlayerId \/ CurrentPlayer s = current_player_ s
     | kSubmitPoints => CurrentPlayer s = kSimultaneousPlayerId
     end).
Proof.
  intros Hreach. pose proof (reachable_Inv n s Hreach) as HI.
  pose proof (reachable_Inv2 n s Hreach) as HI2.
  split; [apply (Inv_current _ _ HI)|]. split.
  - intros Hterm. split; [apply (Inv2_end _ HI2 Hterm)|].
    apply CurrentPlayer_terminal, Hterm.
  - intros Hlive. rewrite (CurrentPlayer_live s Hlive).
    pose proof (Inv_turn _ _ HI) as Ht. unfold turn_consistent in Ht.
    destruct (phase_ s); [exact Ht| |apply Ht].
    destruct Ht as [_ [Hch|[Hp _]]]; [left|right]; assumption.
Qed.

(** X4: a finished game is final: no legal move leads out of a terminal
    state. *)
Theorem finished_game_is_final (s s' : QwintoState) :
  IsTerminal s = true -> rtc Step s s' -> s' = s.
Proof.
  intros Hterm Hsteps. destruct Hsteps as [|s s1 s2 Hstep _]; [reflexivity|].
  exfalso. destruct Hstep as [a s3 Hnsim Hlegal Hrun|actions s3 Hsim Hlen Hlegal Hrun].
  - rewrite (CurrentPlayer_terminal s Hterm) in Hlegal.
    destruct Hlegal as (l & Hl & Ha). unfold LegalActions in Hl. simpl in Hl.
    inversion Hl; subst l. inversion Ha.
  - unfold IsSimultaneousNode in Hsim. rewrite (CurrentPlayer_terminal s Hterm) in Hsim.
    discriminate.
Qed.

(** ** What a move does to the boards *)

Lemma Step_boards (n : Z) (s s' : QwintoState) :
  Inv n s -> Step s s' ->
  forall p, 0 <= p < n ->
    (forall i, 0 <= i < 27 ->
       board_at s' p i = board_at s p i \/
       (board_at s p i = 0 /\ board_at s' p i = dice_outcome_ s)) /\
    (board_at s' p 27 = board_at s p 27 \/
     board_at s' p 27 = board_at s p 27 + kDefaultMissPoints).
Proof.
  intros HI [a s1 Hnsim Hlegal Hrun|actions s1 Hsim Hlen Hlegal Hrun] p Hp.
  - destruct (DoApplyAction_frame s s1 a (live_not_simultaneous s Hnsim) Hrun)
      as (Hscores & _ & _).
    unfold board_at. rewrite Hscores. split; [intros i _|]; left; reflexivity.
  - assert (Hjoint : legal_joint_action s actions) by (split; assumption).
    destruct (simultaneous_node_inv n s HI Hsim) as (Hlive & Hphase & Hout).
    pose proof (legal_joint_action_range n s actions HI Hsim Hjoint) as Hrange.
    destruct (legal_joint_action_inv n s actions HI Hsim Hjoint p Hp) as (a & Ha & Hin).
    unfold DoApplyActions in Hrun. inv_ok Hrun. inversion Hrun; subst s1; clear Hrun.
    destruct (apply_actions_cells _ _ _ 0 _ _ ltac:(lia) Hrange Hrun0) as [_ Hcells].
    assert (Hcell : forall i, 0 <= i < 28 ->
              board_at {| num_players_ := num_players_ s;
                          player_ := Z.rem (current_player_ s + 1) (num_players_ s);
                          current_player_ := Z.rem (current_player_ s + 1) (num_players_ s);
                          num_dice_rolls_ := num_dice_rolls_ s; dice_ := dice_ s;
                          dice_outcome_ := dice_outcome_ s; phase_ := kSelectDice;
                          scores_ := x |} p i
              = submitted (dice_outcome_ s) a i (board_at s p i)).
    { intros i Hi. unfold board_at. simpl. rewrite Hcells, Ha by (sizes; lia).
      reflexivity. }
    apply (movelist_submit s p a Hphase) in Hin. split.
    + intros i Hi. rewrite Hcell by lia. unfold submitted.
      destruct (Z.eqb_spec a kActionSkip); [left; reflexivity|].
      destruct (Z.eqb_spec a kActionMiss).
      { sizes. destruct (Z.eqb_spec i 27); [lia|left; reflexivity]. }
      destruct (Z.eqb_spec i a) as [->|]; [|left; reflexivity].
      right. split; [|reflexivity].
      destruct Hin as [[Ha' Hopen]|Hsent].
      * apply (field_is_open_inv s p a Ha' Hopen).
      * destruct (p =? current_player_ s); contradiction.
    + rewrite Hcell by lia.
      assert (Hin' : a ∈ actions).
      { unfold action_of in Ha. destruct (p <? 0); [discriminate|].
        apply list_elem_of_lookup. eauto. }
      destruct (submitted_miss_cases (dice_outcome_ s) a (board_at s p 27) (Hrange a Hin'))
        as [->|(_ & _ & ->)]; [left|right]; reflexivity.
Qed.

(** X5: a field is written once: along every legal play from a reachable
    state a field that is filled keeps its value, and a miss slot never
    grows. *)
Theorem fields_written_once (n : Z) (s s' : QwintoState) (p : Z) :
  reachable n s -> rtc Step s s' -> 0 <= p < n ->
  (forall i, 0 <= i < kDefaultNumDice * kDefaultNumFields ->
     board_at s p i <> 0 -> board_at s' p i = board_at s p i) /\
  board_at s' p 27 <= board_at s p 27.
Proof.
  intros Hreach Hsteps Hp. pose proof (reachable_Inv n s Hreach) as HI. clear Hreach.
  induction Hsteps as [s|s s1 s2 Hstep Hsteps IH]; [split; [reflexivity|lia]|].
  destruct (IH (Inv_Step n s s1 HI Hstep)) as [IHf IHm].
  destruct (Step_boards n s s1 HI Hstep p Hp) as [Hf Hm]. split.
  - intros i Hi Hnz. sizes. destruct (Hf i Hi) as [Heq|[Hz _]]; [|contradiction].
    rewrite IHf by (sizes; try lia; rewrite Heq; exact Hnz). exact Heq.
  - sizes. lia.
Qed.

(** X6: in every reachable state a field holds 0 or a dice sum from 1 to
    18, and a miss slot holds 0, -5, -10, -15 or -20. *)
Theorem board_values (n : Z) (s : QwintoState) (p : Z) :
  reachable n s -> 0 <= p < n ->
  (forall i, 0 <= i < kDefaultNumDice * kDefaultNumFields -> 0 <= board_at s p i <= 18) /\
  board_at s p (kDefaultNumDice * kDefaultNumFields) ∈ [0; -5; -10; -15; -20].
Proof.
  intros Hreach Hp. pose proof (reachable_Inv n s Hreach) as HI.
  pose proof (reachable_Inv2 n s Hreach) as HI2. split.
  - intros i Hi. apply (ok_fields _ (Inv_boards _ _ HI p Hp)). sizes. lia.
  - apply (Inv2_miss _ HI2). rewrite (Inv_players _ _ HI). exact Hp.
Qed.

(** ** The action ids *)

(** X7: an action that [LegalActions] returns for a player index is the
    "skip" action or an action id below [NumDistinctActions]. *)
Theorem legal_actions_are_action_ids (s : QwintoState) (p a : Z) :
  0 <= p -> legal_action s p a ->
  a = kActionSkip \/ 0 <= a < NumDistinctActions.
Proof.
  intros Hp Hlegal. apply legal_action_player in Hlegal as (_ & _ & Ha); [|exact Hp].
  unfold NumDistinctActions. unfold movelist in Ha. destruct (phase_ s) eqn:Hphase.
  - right. repeat (apply elem_of_cons in Ha as [->|Ha]); [..|inversion Ha];
      vm_compute; split; (discriminate || reflexivity).
  - right. apply elem_of_app in Ha as [Ha|Ha].
    + destruct (_ <? _); [|inversion Ha]. apply list_elem_of_singleton in Ha.
      subst a. vm_compute. split; (discriminate || reflexivity).
    + apply list_elem_of_singleton in Ha.
      subst a. vm_compute. split; (discriminate || reflexivity).
  - apply elem_of_app in Ha as [Ha|Ha].
    + right. apply list_elem_of_filter in Ha as [_ Ha]. apply elem_of_seqZ in Ha. lia.
    + apply list_elem_of_singleton in Ha. subst a.
      destruct (p =? current_player_ s); [right|left; reflexivity]. sizes. lia.
Qed.

(** ** The chance outcomes of any state *)

(** X8: [ChanceOutcomes] ends in a fatal error exactly when the state is
    not a chance node or no color is selected; otherwise it returns between
    6 and [MaxChanceOutcomes] outcomes, each a sum from 1 to 18 with a
    positive probability, and the probabilities add up to 1 within the
    rounding error of [double]. *)
Theorem ChanceOutcomes_cases (s : QwintoState) :
  (ChanceOutcomes s = Fatal <->
   IsChanceNode s = false \/
   (Z.land (dice_ s) kOrange = 0 /\ Z.land (dice_ s) kYellow = 0 /\
    Z.land (dice_ s) kPurple = 0)) /\
  (ChanceOutcomes s = Fatal \/
   exists outs, ChanceOutcomes s = Ok outs /\
     6 <= Z.of_nat (length outs) <= MaxChanceOutcomes /\
     Forall (fun o => 1 <= fst o <= 18 /\ (0 < double_value (snd o))%Q) outs /\
     Qnear 53 (Qsum (map (fun o => double_value (snd o)) outs)) 1).
Proof.
  unfold ChanceOutcomes, num_dice, kInvalidDie.
  destruct (IsChanceNode s).
  2: { simpl. split; [split; [intros _; left; reflexivity|reflexivity]|left; reflexivity]. }
  destruct (Z.eqb_spec (Z.land (dice_ s) kOrange) 0) as [Ho|Ho],
    (Z.eqb_spec (Z.land (dice_ s) kYellow) 0) as [Hy|Hy],
    (Z.eqb_spec (Z.land (dice_ s) kPurple) 0) as [Hp|Hp]; simpl;
    try (split; [split; [intros _; right; repeat split; assumption|reflexivity]
                |left; reflexivity]);
    (split;
     [split; [discriminate|intros [Hc|(H1 & H2 & H3)]; [discriminate|contradiction]]
     |right; eexists; (split; [reflexivity|]);
      (split; [vm_compute; split; discriminate|]);
      (split; [repeat (constructor; [split; [simpl; lia|vm_compute; reflexivity]|]);
               constructor
              |apply Qnearb_true; vm_compute; reflexivity])]).
Qed.

(** ** The legal fields *)

Lemma is_valid_column_intro (b : Z -> Z) (outcome c : Z) :
  0 <= c < 27 -> b c <> outcome ->
  (forall d, d ∈ paired_cells c -> b d <> outcome) ->
  is_valid_column b outcome c = true.
Proof.
  intros Hc Hself Hpaired. each_field c Hc;
    unfold is_valid_column; simpl;
    repeat match goal with
    | |- context [Z.rem ?x ?y] =>
        let v := eval vm_compute in (Z.rem x y) in change (Z.rem x y) with v
    end;
    repeat match goal with
    | |- context [b ?d =? outcome] =>
        rewrite (proj2 (Z.eqb_neq (b d) outcome))
          by first [exact Hself
                   |apply Hpaired; apply (bool_decide_unpack _); vm_compute; exact I]
    end; reflexivity.
Qed.

Lemma field_is_open_intro (s : QwintoState) (p a : Z) :
  0 <= a < 27 ->
  Z.land (dice_ s) (row_die (Z.quot a 9)) <> 0 ->
  board_at s p a = 0 ->
  (forall k, 0 <= k -> k < a -> Z.quot k 9 = Z.quot a 9 ->
     board_at s p k < dice_outcome_ s) ->
  (forall k, a < k -> k < 27 -> Z.quot k 9 = Z.quot a 9 ->
     board_at s p k = 0 \/ dice_outcome_ s < board_at s p k) ->
  is_valid_column (board_at s p) (dice_outcome_ s) a = true ->
  field_is_open s p a = true.
Proof.
  intros Ha Hdie Hfree Hleft Hright Hvalid.
  unfold field_is_open, kDefaultNumFields, kInvalidDie.
  rewrite Hvalid, andb_true_r, negb_orb, !negb_involutive.
  repeat (apply andb_true_intro; split).
  - apply negb_true_iff, Z.eqb_neq, Hdie.
  - apply Z.eqb_eq, Hfree.
  - apply forallb_forall. intros k Hk. apply list_elem_of_In, elem_of_seqZ in Hk.
    apply Z.ltb_lt, Hleft; euclid.
  - apply forallb_forall. intros k Hk. apply list_elem_of_In, elem_of_seqZ in Hk.
    apply orb_true_intro.
    destruct (Hright k) as [Hz|Hgt]; euclid.
Qed.

(** X9: at a reachable simultaneous node a field is a legal action of a
    player exactly when its color is selected, it is empty, the fields to
    its left in its row are less than the dice outcome, the fields to its
    right are empty or greater, and no paired field holds the dice
    outcome. *)
Theorem legal_field_iff (n : Z) (s : QwintoState) (p i : Z) :
  reachable n s -> IsSimultaneousNode s = true -> 0 <= p < n ->
  0 <= i < kDefaultNumDice * kDefaultNumFields -> i <> kActionSkip ->
  legal_action s p i <->
  (Z.land (dice_ s) (row_die (i / 9)) <> 0 /\
   board_at s p i = 0 /\
   (forall k, 0 <= k < i -> k / 9 = i / 9 -> board_at s p k < dice_outcome_ s) /\
   (forall k, i < k < 27 -> k / 9 = i / 9 ->
      board_at s p k = 0 \/ dice_outcome_ s < board_at s p k) /\
   (forall d, d ∈ paired_cells i -> board_at s p d <> dice_outcome_ s)).
Proof.
  intros Hreach Hsim Hp Hi Hskip. pose proof (reachable_Inv n s Hreach) as HI.
  destruct (simultaneous_node_inv n s HI Hsim) as (Hlive & Hphase & Hout).
  pose proof (Inv_players _ _ HI) as Hn.
  assert (Hi' : 0 <= i < 27) by (sizes; lia).
  assert (Hrow : Z.quot i 9 = i / 9) by (apply Z.quot_div_nonneg; lia).
  assert (Hrows : forall k, 0 <= k -> (Z.quot k 9 = Z.quot i 9 <-> k / 9 = i / 9)).
  { intros k Hk. rewrite Hrow, (Z.quot_div_nonneg k 9) by lia. reflexivity. }
  split.
  - intros Hlegal. apply legal_action_player in Hlegal as (_ & _ & Hin); [|lia].
    apply (movelist_submit s p i Hphase) in Hin as [[_ Hopen]|Hsent].
    + destruct (field_is_open_inv s p i Hi' Hopen) as (Hdie & Hfree & Hleft & Hright & Hvalid).
      rewrite Hrow in Hdie. split; [exact Hdie|]. split; [exact Hfree|].
      split; [|split].
      * intros k Hk Hsame. apply Hleft; try lia. apply Hrows; [lia|exact Hsame].
      * intros k Hk Hsame. apply Hright; try lia. apply Hrows; [lia|exact Hsame].
      * intros d Hd. apply (is_valid_column_paired _ _ i d Hi' Hvalid Hd).
    + sizes. destruct (p =? current_player_ s); [lia|contradiction].
  - intros (Hdie & Hfree & Hleft & Hright & Hpaired).
    exists (merge_sort Z.le (movelist s p)). split.
    + rewrite LegalActions_player by lia. rewrite Hlive. reflexivity.
    + apply elem_of_merge_sort. unfold movelist. rewrite Hphase.
      apply elem_of_app. left. apply list_elem_of_filter. split.
      * apply field_is_open_intro; try assumption.
        -- rewrite Hrow. exact Hdie.
        -- intros k Hk0 Hk Hsame. apply Hleft; [lia|]. apply Hrows; [lia|exact Hsame].
        -- intros k Hk0 Hk Hsame. apply Hright; [lia|]. apply Hrows; [lia|exact Hsame].
        -- apply is_valid_column_intro; [exact Hi'| |exact Hpaired].
           rewrite Hfree. lia.
      * apply elem_of_seqZ. sizes. lia.
Qed.

(** ** The bounds of the returns *)

Lemma row_nonneg (b : Z -> Z) (start : Z) :
  (forall k, 0 <= k < 9 -> 0 <= b (start + k)) ->
  Forall (fun v => 0 <= v) (map b (seqZ start 9)).
Proof.
  intros Hb. apply Forall_forall. intros v Hv.
  apply list_elem_of_fmap in Hv as (k & -> & Hk). apply elem_of_seqZ in Hk.
  replace k with (start + (k - start)) by lia. apply Hb. lia.
Qed.

Lemma Forall_row (P : Z -> Prop) (b : Z -> Z) (start k : Z) :
  Forall P (map b (seqZ start 9)) -> 0 <= k < 9 -> P (b (start + k)).
Proof.
  intros Hall Hk. rewrite Forall_forall in Hall. apply Hall.
  apply list_elem_of_fmap. exists (start + k). split; [reflexivity|].
  apply elem_of_seqZ. lia.
Qed.

(** A row that is not full scores at most 8; a full row scores its last
    field. *)
Lemma row_score_cases (l : list Z) :
  Forall (fun v => 0 <= v) l -> length l = 9%nat ->
  (Forall (fun v => v <> 0) l /\ row_score l = l !!! 8%nat) \/
  0 <= row_score l <= 8.
Proof.
  intros Hnonneg Hlen. unfold row_score.
  rewrite (count_filled l Hnonneg).
  destruct (forallb filled l) eqn:Hfull.
  - left. split; [|reflexivity]. apply Forall_forall. intros v Hv.
    rewrite forallb_forall in Hfull. apply list_elem_of_In, Hfull in Hv.
    unfold filled in Hv. apply negb_true_iff, Z.eqb_neq in Hv. exact Hv.
  - right. rewrite (forallb_filled l Hnonneg) in Hfull. apply Z.eqb_neq in Hfull.
    pose proof (length_filter (fun a => 0 < a) l). lia.
Qed.

(** The nine facts of a row and the order of its neighbours. *)
Ltac row_facts H b start :=
  let fact k :=
    (let v := eval vm_compute in (start + k) in
     let Hk := fresh "Hfull" in
     pose proof (Forall_row _ b start k H ltac:(lia)) as Hk;
     change (b (start + k)) with (b v) in Hk; cbv beta in Hk) in
  fact 0; fact 1; fact 2; fact 3; fact 4; fact 5; fact 6; fact 7; fact 8.

Ltac row_order Hok start :=
  let fact k :=
    (let i := eval vm_compute in (start + k) in
     let j := eval vm_compute in (start + k + 1) in
     pose proof (ok_rows _ Hok i j ltac:(lia) ltac:(lia) ltac:(lia) eq_refl)) in
  fact 0; fact 1; fact 2; fact 3; fact 4; fact 5; fact 6; fact 7.

(** Uses the facts [x <> 0] at hand in the implications at hand. *)
Ltac use_filled :=
  repeat match goal with
  | H : ?x <> 0 -> _, H' : ?x <> 0 |- _ => specialize (H H')
  end.

Lemma player_return_bounds (s : QwintoState) (p : Z) :
  board_ok (board_at s p) -> -20 <= board_at s p 27 ->
  MinUtility <= player_return s p <= MaxUtility.
Proof.
  intros Hok Hmiss. unfold player_return, MinUtility, MaxUtility.
  set (b := board_at s p) in *.
  assert (Hb : forall i, 0 <= i < 27 -> 0 <= b i <= 18) by apply (ok_fields _ Hok).
  pose proof (ok_miss _ Hok) as Hm.
  change (row_return b) with (row_return (fun k => b (0 + k))).
  rewrite !row_return_score by (intros k Hk; apply Hb; sizes; lia).
  change (b (kDefaultNumDice * kDefaultNumFields)) with (b 27).
  pose proof (ok_rows _ Hok 1 4 ltac:(lia) ltac:(lia) ltac:(lia) eq_refl) as Horange.
  pose proof (ok_rows _ Hok 20 26 ltac:(lia) ltac:(lia) ltac:(lia) eq_refl) as Hpurple.
  pose proof (Hb 1 ltac:(lia)). pose proof (Hb 4 ltac:(lia)).
  pose proof (Hb 15 ltac:(lia)). pose proof (Hb 20 ltac:(lia)).
  pose proof (Hb 26 ltac:(lia)). pose proof (Hb 8 ltac:(lia)).
  pose proof (Hb 17 ltac:(lia)).
  assert (Horange_row :
    0 <= row_score (map b (seqZ 0 9)) /\
    (row_score (map b (seqZ 0 9)) <= 8 \/
     (row_score (map b (seqZ 0 9)) <= 18 /\ b 4 <= 14 /\ b 1 <= 11))).
  { destruct (row_score_cases (map b (seqZ 0 9))) as [[Hfull ->]|Hle];
      [apply row_nonneg; intros k Hk; apply Hb; lia|reflexivity| |lia].
    change (map b (seqZ 0 9) !!! 8%nat) with (b 8).
    row_facts Hfull b 0. row_order Hok 0. use_filled. clear Hb Hok. lia. }
  assert (Hyellow_row :
    0 <= row_score (map b (seqZ kDefaultNumFields 9)) /\
    (row_score (map b (seqZ kDefaultNumFields 9)) <= 8 \/
     (row_score (map b (seqZ kDefaultNumFields 9)) <= 18 /\ b 15 <= 16))).
  { destruct (row_score_cases (map b (seqZ kDefaultNumFields 9))) as [[Hfull ->]|Hle];
      [apply row_nonneg; intros k Hk; apply Hb; sizes; lia|reflexivity| |lia].
    change (map b (seqZ kDefaultNumFields 9) !!! 8%nat) with (b 17).
    row_facts Hfull b 9. row_order Hok 9. use_filled. clear Hb Hok. lia. }
  assert (Hpurple_row :
    0 <= row_score (map b (seqZ (kDefaultNumFields + kDefaultNumFields) 9)) /\
    (row_score (map b (seqZ (kDefaultNumFields + kDefaultNumFields) 9)) <= 8 \/
     (row_score (map b (seqZ (kDefaultNumFields + kDefaultNumFields) 9)) <= 18 /\
      b 20 <= 12))).
  { destruct (row_score_cases (map b (seqZ (kDefaultNumFields + kDefaultNumFields) 9)))
      as [[Hfull ->]|Hle];
      [apply row_nonneg; intros k Hk; apply Hb; sizes; lia|reflexivity| |lia].
    change (map b (seqZ (kDefaultNumFields + kDefaultNumFields) 9) !!! 8%nat) with (b 26).
    row_facts Hfull b 18. row_order Hok 18. use_filled. clear Hb Hok. lia. }
  set (R0 := row_score (map b (seqZ 0 9))) in *.
  set (R1 := row_score (map b (seqZ kDefaultNumFields 9))) in *.
  set (R2 := row_score (map b (seqZ (kDefaultNumFields + kDefaultNumFields) 9))) in *.
  set (D1 := if (0 <? b 0) && (0 <? b 10) && (0 <? b 20) then b 20 else 0).
  set (D2 := if (0 <? b 1) && (0 <? b 11) && (0 <? b 21) then b 1 else 0).
  set (D3 := if (0 <? b 4) && (0 <? b 14) && (0 <? b 24) then b 4 else 0).
  set (D4 := if (0 <? b 5) && (0 <? b 15) && (0 <? b 25) then b 15 else 0).
  set (D5 := if (0 <? b 6) && (0 <? b 16) && (0 <? b 26) then b 26 else 0).
  assert (HD1 : 0 <= D1 <= b 20)
    by (subst D1; destruct ((0 <? b 0) && (0 <? b 10) && (0 <? b 20)); lia).
  assert (HD2 : 0 <= D2 <= b 1)
    by (subst D2; destruct ((0 <? b 1) && (0 <? b 11) && (0 <? b 21)); lia).
  assert (HD3 : 0 <= D3 <= b 4)
    by (subst D3; destruct ((0 <? b 4) && (0 <? b 14) && (0 <? b 24)); lia).
  assert (HD4 : 0 <= D4 <= b 15)
    by (subst D4; destruct ((0 <? b 5) && (0 <? b 15) && (0 <? b 25)); lia).
  assert (HD5 : 0 <= D5 <= b 26)
    by (subst D5; destruct ((0 <? b 6) && (0 <? b 16) && (0 <? b 26)); lia).
  clearbody R0 R1 R2 D1 D2 D3 D4 D5. clear Hb Hok.
  assert (Horange_total : R0 + D2 + D3 <= 43) by lia.
  assert (Hyellow_total : R1 + D4 <= 34) by lia.
  assert (Hpurple_total : R2 + D1 + D5 <= 48) by lia.
  unfold kDefaultTerminationPoints. lia.
Qed.

(** X10: in every reachable state the return of every player lies between
    [MinUtility] and [MaxUtility]. *)
Theorem Returns_within_utility_bounds (n : Z) (s : QwintoState) :
  reachable n s ->
  Forall (fun r => MinUtility <= r <= MaxUtility) (Returns s).
Proof.
  intros Hreach. pose proof (reachable_Inv n s Hreach) as HI.
  pose proof (reachable_Inv2 n s Hreach) as HI2. pose proof (Inv_players _ _ HI) as Hn.
  unfold Returns. apply Forall_forall. intros r Hr.
  destruct (IsTerminal s); simpl in Hr.
  - apply list_elem_of_fmap in Hr as (p & -> & Hp). apply elem_of_seqZ in Hp.
    apply player_return_bounds; [apply (Inv_boards _ _ HI); lia|].
    pose proof (proj1 (miss_values _) (Inv2_miss _ HI2 p ltac:(lia))). lia.
  - apply elem_of_replicate in Hr as [-> _]. vm_compute. split; discriminate.
Qed.

(** ** The length of a game *)

Lemma sumZ_le (f g : Z -> Z) (l : list Z) :
  (forall x, x ∈ l -> f x <= g x) -> sumZ f l <= sumZ g l.
Proof.
  unfold sumZ. induction l as [|x l IH]; intros Hle; simpl; [lia|].
  pose proof (Hle x ltac:(left)).
  pose proof (IH (fun y Hy => Hle y ltac:(right; exact Hy))). lia.
Qed.

Lemma sumZ_lt (f g : Z -> Z) (l : list Z) (c : Z) :
  (forall x, x ∈ l -> f x <= g x) -> c ∈ l -> f c + 1 <= g c ->
  sumZ f l + 1 <= sumZ g l.
Proof.
  unfold sumZ. induction l as [|x l IH]; intros Hle Hc Hlt; [inversion Hc|].
  simpl. pose proof (Hle x ltac:(left)) as Hx.
  pose proof (sumZ_le f g l (fun y Hy => Hle y ltac:(right; exact Hy))) as Hl.
  unfold sumZ in Hl.
  apply elem_of_cons in Hc as [->|Hc]; [lia|].
  pose proof (IH (fun y Hy => Hle y ltac:(right; exact Hy)) Hc Hlt). lia.
Qed.

Lemma sumZ_ext (f g : Z -> Z) (l : list Z) :
  (forall x, x ∈ l -> f x = g x) -> sumZ f l = sumZ g l.
Proof.
  intros Heq. apply Z.le_antisymm; apply sumZ_le; intros x Hx;
    rewrite (Heq x Hx); lia.
Qed.

Lemma sumZ_const (c : Z) (l : list Z) :
  sumZ (fun _ => c) l = c * Z.of_nat (length l).
Proof. unfold sumZ. induction l as [|x l IH]; simpl length; simpl; lia. Qed.

Lemma empty_fields_range (b : Z -> Z) : 0 <= empty_fields b <= 27.
Proof.
  unfold empty_fields.
  pose proof (sumZ_const 0 (seqZ 0 (kDefaultNumDice * kDefaultNumFields))) as H0.
  pose proof (sumZ_const 1 (seqZ 0 (kDefaultNumDice * kDefaultNumFields))) as H1.
  rewrite length_seqZ in H0, H1.
  pose proof (sumZ_le (fun _ => 0) (fun i => b2z (b i =? 0))
                (seqZ 0 (kDefaultNumDice * kDefaultNumFields))
                ltac:(intros x _; cbv beta; destruct (b x =? 0); simpl; lia)).
  pose proof (sumZ_le (fun i => b2z (b i =? 0)) (fun _ => 1)
                (seqZ 0 (kDefaultNumDice * kDefaultNumFields))
                ltac:(intros x _; cbv beta; destruct (b x =? 0); simpl; lia)).
  sizes. lia.
Qed.

(** Filling fields leaves fewer empty fields. *)
Lemma empty_fields_le (b b' : Z -> Z) (outcome : Z) :
  (forall i, 0 <= i < 27 -> b' i = b i \/ (b i = 0 /\ b' i = outcome)) ->
  empty_fields b' <= empty_fields b.
Proof.
  intros Hcells. apply sumZ_le. intros i Hi. apply elem_of_seqZ in Hi.
  destruct (Hcells i ltac:(sizes; lia)) as [->|[-> _]]; [lia|].
  destruct (b' i =? 0); simpl; lia.
Qed.

Lemma empty_fields_lt (b b' : Z -> Z) (outcome a : Z) :
  (forall i, 0 <= i < 27 -> b' i = b i \/ (b i = 0 /\ b' i = outcome)) ->
  0 <= a < 27 -> b a = 0 -> b' a <> 0 ->
  empty_fields b' + 1 <= empty_fields b.
Proof.
  intros Hcells Ha Hfree Hfilled. apply (sumZ_lt _ _ _ a).
  - intros i Hi. apply elem_of_seqZ in Hi.
    destruct (Hcells i ltac:(sizes; lia)) as [->|[-> _]]; [lia|].
    destruct (b' i =? 0); simpl; lia.
  - apply elem_of_seqZ. sizes. lia.
  - rewrite Hfree. apply Z.eqb_neq in Hfilled. rewrite Hfilled. simpl. lia.
Qed.

Lemma misses_left_cases (b : Z -> Z) :
  b 27 ∈ [0; -5; -10; -15; -20] ->
  misses_left b = (b 27 + 20) / 5 /\ 0 <= misses_left b <= 4 /\
  5 * misses_left b = b 27 + 20.
Proof.
  intros Hm. apply miss_values in Hm. unfold misses_left.
  change (b (kDefaultNumDice * kDefaultNumFields)) with (b 27).
  unfold kDefaultTerminationPoints. clear_parameters.
  destruct Hm as [->|[->|[->|[->| ->]]]]; vm_compute; repeat split; discriminate.
Qed.

(** No action of the current player is "skip". *)
Lemma apply_actions_not_skip (cur outcome : Z) (actions : list Z) :
  forall (p0 : Z) (scores scores' : list Z),
    apply_actions cur outcome p0 actions scores = Ok scores' ->
    action_of p0 actions cur <> Some kActionSkip.
Proof.
  induction actions as [|a rest IH]; intros p0 scores scores' Hrun.
  - unfold action_of. destruct (cur <? p0); [discriminate|].
    rewrite lookup_nil. discriminate.
  - destruct (Z.eq_dec cur p0) as [->|Hne].
    + rewrite action_of_cons_head. simpl in Hrun. intros Heq.
      inversion Heq; subst a. rewrite Z.eqb_refl in Hrun. inv_ok Hrun.
      rewrite Z.eqb_refl in Hcheck. discriminate.
    + rewrite action_of_cons_tail by exact Hne. simpl in Hrun.
      destruct (a =? kActionSkip); [|destruct (a =? kActionMiss)]; inv_ok Hrun;
        apply (IH _ _ _ Hrun).
Qed.

(** The current player fills a field or takes a miss. *)
Lemma Step_current_board (n : Z) (s s' : QwintoState) :
  Inv n s -> IsSimultaneousNode s = true -> Step s s' ->
  (exists a, 0 <= a < 27 /\ board_at s (current_player_ s) a = 0 /\
     board_at s' (current_player_ s) a = dice_outcome_ s) \/
  board_at s' (current_player_ s) 27
  = board_at s (current_player_ s) 27 + kDefaultMissPoints.
Proof.
  intros HI Hsim [a s1 Hnsim Hlegal Hrun|actions s1 _ Hlen Hlegal Hrun].
  { unfold IsSimultaneousNode in Hsim. apply Z.eqb_eq in Hsim. contradiction. }
  assert (Hjoint : legal_joint_action s actions) by (split; assumption).
  destruct (simultaneous_node_inv n s HI Hsim) as (Hlive & Hphase & Hout).
  pose proof (legal_joint_action_range n s actions HI Hsim Hjoint) as Hrange.
  pose proof (Inv_current _ _ HI) as Hc.
  destruct (legal_joint_action_inv n s actions HI Hsim Hjoint _ Hc) as (a & Ha & Hin).
  unfold DoApplyActions in Hrun. inv_ok Hrun.
  destruct (apply_actions_cells _ _ _ 0 _ _ ltac:(lia) Hrange Hrun0) as [_ Hcells].
  assert (Hcell : forall i, 0 <= i < 28 ->
            board_at s1 (current_player_ s) i
            = submitted (dice_outcome_ s) a i (board_at s (current_player_ s) i)).
  { intros i Hi. inversion Hrun. unfold board_at. simpl.
    rewrite Hcells, Ha by (sizes; lia). reflexivity. }
  pose proof (apply_actions_not_skip _ _ _ _ _ _ Hrun0) as Hskip.
  rewrite Ha in Hskip.
  assert (Hns : a <> kActionSkip) by (intros ->; apply Hskip; reflexivity).
  apply (movelist_submit s _ a Hphase) in Hin. rewrite Z.eqb_refl in Hin.
  rewrite (Hcell 27) by lia. unfold submitted.
  apply Z.eqb_neq in Hns. rewrite Hns.
  destruct Hin as [[Ha' Hopen]|Hmiss].
  - left. exists a. split; [exact Ha'|].
    split; [apply (field_is_open_inv s _ a Ha' Hopen)|].
    rewrite (Hcell a) by lia. unfold submitted. rewrite Hns.
    destruct (Z.eqb_spec a kActionMiss) as [Hm|_]; [sizes; lia|].
    rewrite Z.eqb_refl. reflexivity.
  - right. subst a. rewrite Z.eqb_refl. reflexivity.
Qed.

(** A single action leaves the boards and the turn alone and, unless it
    is an outcome of chance, is one more decision of the turn. *)
Lemma single_step_measures (s s1 : QwintoState) :
  IsSimultaneousNode s = false -> Step s s1 ->
  scores_ s1 = scores_ s /\ num_players_ s1 = num_players_ s /\
  current_player_ s1 = current_player_ s /\
  decisions s1 = decisions s + (if IsChanceNode s then 0 else 1).
Proof.
  intros Hnsim [a s2 _ Hlegal Hrun|actions s2 Hsim _ _ _]; [|congruence].
  destruct (DoApplyAction_frame s s2 a Hnsim Hrun) as (Hscores & Hplayers & Hcurrent).
  repeat (split; [assumption|]).
  unfold DoApplyAction in Hrun. rewrite Hnsim in Hrun. unfold decisions.
  destruct (IsChanceNode s); inv_ok Hrun;
    [|destruct (phase_ s); try destruct (a =? 0);
      try destruct ((0 <=? a) && (a <=? 7)); inv_ok Hrun];
    try discriminate; inversion Hrun; simpl; lia.
Qed.

(** A joint action ends a turn: one turn less is left, and the next
    player is the current player. *)
Lemma joint_step_measures (n : Z) (s s1 : QwintoState) :
  Inv n s -> Inv2 s -> IsSimultaneousNode s = true -> Step s s1 ->
  turns_left s1 + 1 <= turns_left s /\ decisions s1 = 0 /\
  decisions s <= Z.max 1 kDefaultNumDiceRolls + 1 /\
  current_player_ s1 = (current_player_ s + 1) mod n.
Proof.
  intros HI HI2 Hsim Hstep.
  pose proof (Inv_Step n s s1 HI Hstep) as HI1.
  destruct (simultaneous_node_inv n s HI Hsim) as (Hlive & Hphase & Hout).
  pose proof (Inv_players _ _ HI) as Hn. pose proof (Inv_players _ _ HI1) as Hn1.
  pose proof (Inv_current _ _ HI) as Hc.
  pose proof (Inv2_Step n s s1 HI HI2 Hstep) as HI21.
  split; [|split; [|split]].
  - unfold turns_left. rewrite Hn, Hn1.
    apply (sumZ_lt _ _ _ (current_player_ s)); [|apply elem_of_seqZ; lia|].
    + intros p Hp. apply elem_of_seqZ in Hp.
      destruct (Step_boards n s s1 HI Hstep p ltac:(lia)) as [Hfields Hmiss].
      pose proof (empty_fields_le _ _ _ Hfields).
      pose proof (misses_left_cases _ (Inv2_miss _ HI2 p ltac:(lia))) as (_ & _ & H5).
      pose proof (misses_left_cases _ (Inv2_miss _ HI21 p ltac:(lia))) as (_ & _ & H51).
      sizes. lia.
    + destruct (Step_boards n s s1 HI Hstep _ Hc) as [Hfields Hmiss].
      pose proof (empty_fields_le _ _ _ Hfields).
      pose proof (misses_left_cases _ (Inv2_miss _ HI2 (current_player_ s) ltac:(lia))) as (_ & _ & H5).
      pose proof (misses_left_cases _ (Inv2_miss _ HI21 (current_player_ s) ltac:(lia))) as (_ & _ & H51).
      destruct (Step_current_board n s s1 HI Hsim Hstep) as [(a & Ha & Hfree & Hfilled)|Hm].
      * pose proof (empty_fields_lt _ _ _ a Hfields Ha Hfree ltac:(lia)).
        sizes. lia.
      * sizes. lia.
  - destruct Hstep as [a s2 Hnsim Hlegal Hrun|actions s2 _ Hlen Hlegal Hrun].
    + unfold IsSimultaneousNode in Hsim. apply Z.eqb_eq in Hsim. contradiction.
    + unfold DoApplyActions in Hrun. inv_ok Hrun. inversion Hrun. reflexivity.
  - unfold decisions. rewrite Hphase. pose proof (Inv2_rolls _ HI2). lia.
  - destruct Hstep as [a s2 Hnsim Hlegal Hrun|actions s2 _ Hlen Hlegal Hrun].
    + unfold IsSimultaneousNode in Hsim. apply Z.eqb_eq in Hsim. contradiction.
    + unfold DoApplyActions in Hrun. inv_ok Hrun. inversion Hrun. simpl.
      rewrite Hn. rewrite Z.rem_mod_nonneg by lia. reflexivity.
Qed.

Lemma turns_left_scores (s s1 : QwintoState) :
  scores_ s1 = scores_ s -> num_players_ s1 = num_players_ s ->
  turns_left s1 = turns_left s.
Proof. unfold turns_left, board_at. intros -> ->. reflexivity. Qed.

Lemma Play_rtc (s s' : QwintoState) (t m : nat) : Play s t m s' -> rtc Step s s'.
Proof.
  induction 1 as [s|s s1 t m s2 _ Hstep _ IH|s s1 t m s2 _ _ Hstep _ IH
                 |s s1 t m s2 _ Hstep _ IH];
    [apply rtc_refl|apply (rtc_l _ _ s1); assumption..].
Qed.

(** What a play adds up to. *)
Lemma Play_measures (n : Z) (s s' : QwintoState) (t m : nat) :
  Play s t m s' -> Inv n s -> Inv2 s ->
  Z.of_nat t + turns_left s' <= turns_left s /\
  Z.of_nat m + decisions s
  <= (Z.max 1 kDefaultNumDiceRolls + 1) * Z.of_nat t + decisions s' /\
  current_player_ s' = (current_player_ s + Z.of_nat t) mod n.
Proof.
  intros Hplay.
  induction Hplay as [s|s s1 t m s2 Hchance Hstep _ IH|s s1 t m s2 Hchance Hnsim Hstep _ IH
                     |s s1 t m s2 Hsim Hstep _ IH]; intros HI HI2.
  - pose proof (Inv_current _ _ HI). rewrite Z.add_0_r, Z.mod_small by lia. lia.
  - assert (Hnsim : IsSimultaneousNode s = false).
    { unfold IsSimultaneousNode, IsChanceNode in *. apply Z.eqb_eq in Hchance.
      rewrite Hchance. reflexivity. }
    destruct (single_step_measures s s1 Hnsim Hstep) as (Hscores & Hplayers & Hcur & Hdec).
    rewrite Hchance in Hdec.
    pose proof (Inv2_Step n s s1 HI HI2 Hstep) as HI21.
    destruct (IH (Inv_Step n s s1 HI Hstep) HI21) as (IHt & IHm & IHc).
    rewrite (turns_left_scores s s1 Hscores Hplayers) in IHt. rewrite Hcur in IHc.
    split; [lia|]. split; [lia|exact IHc].
  - destruct (single_step_measures s s1 Hnsim Hstep) as (Hscores & Hplayers & Hcur & Hdec).
    rewrite Hchance in Hdec.
    pose proof (Inv2_Step n s s1 HI HI2 Hstep) as HI21.
    destruct (IH (Inv_Step n s s1 HI Hstep) HI21) as (IHt & IHm & IHc).
    rewrite (turns_left_scores s s1 Hscores Hplayers) in IHt. rewrite Hcur in IHc.
    split; [lia|]. split; [lia|exact IHc].
  - destruct (joint_step_measures n s s1 HI HI2 Hsim Hstep) as (Hturns & Hdec & Hmax & Hcur).
    pose proof (Inv2_Step n s s1 HI HI2 Hstep) as HI21.
    destruct (IH (Inv_Step n s s1 HI Hstep) HI21) as (IHt & IHm & IHc).
    pose proof (Inv_players _ _ HI) as Hn. pose proof (Inv_current _ _ HI) as Hc.
    split; [lia|]. split; [lia|].
    rewrite IHc, Hcur. rewrite Zplus_mod_idemp_l. f_equal. lia.
Qed.

Lemma board_at_init (n p i : Z) :
  0 <= p < n -> 0 <= i < kBoardSize -> board_at (NewInitialState n) p i = 0.
Proof.
  intros Hp Hi. unfold board_at, NewInitialState, vget. simpl.
  apply lookup_total_replicate_2. sizes. nia.
Qed.

Lemma turns_left_init (n : Z) : 1 <= n -> turns_left (NewInitialState n) = 31 * n.
Proof.
  intros Hn. unfold turns_left. simpl num_players_.
  rewrite (sumZ_ext _ (fun _ => 31)).
  - rewrite sumZ_const, length_seqZ. lia.
  - intros p Hp. apply elem_of_seqZ in Hp.
    assert (Hempty : empty_fields (board_at (NewInitialState n) p) = 27).
    { unfold empty_fields. rewrite (sumZ_ext _ (fun _ => 1)).
      - rewrite sumZ_const, length_seqZ. sizes. lia.
      - intros i Hi. apply elem_of_seqZ in Hi.
        rewrite board_at_init by (sizes; lia). reflexivity. }
    rewrite Hempty. unfold misses_left.
    rewrite board_at_init by (sizes; lia). reflexivity.
Qed.

Lemma turns_left_nonneg (s : QwintoState) : Inv2 s -> 0 <= turns_left s.
Proof.
  intros HI2. unfold turns_left.
  pose proof (sumZ_const 0 (seqZ 0 (num_players_ s))) as H0.
  pose proof (sumZ_le (fun _ => 0)
                (fun p => empty_fields (board_at s p) + misses_left (board_at s p))
                (seqZ 0 (num_players_ s))) as Hle.
  rewrite H0 in Hle. etransitivity; [|apply Hle]; [lia|].
  intros p Hp. apply elem_of_seqZ in Hp.
  pose proof (empty_fields_range (board_at s p)).
  pose proof (misses_left_cases _ (Inv2_miss _ HI2 p ltac:(lia))). lia.
Qed.

(** A game that is not over has a turn left. *)
Lemma turns_left_live (n : Z) (s : QwintoState) :
  Inv n s -> Inv2 s -> IsTerminal s = false -> 1 <= turns_left s.
Proof.
  intros HI HI2 Hlive. unfold turns_left.
  pose proof (Inv_players _ _ HI) as Hn. pose proof (Inv_current _ _ HI) as Hc.
  pose proof (sumZ_const 0 (seqZ 0 (num_players_ s))) as H0.
  pose proof (sumZ_lt (fun _ => 0)
                (fun p => empty_fields (board_at s p) + misses_left (board_at s p))
                (seqZ 0 (num_players_ s)) 0) as Hlt.
  rewrite H0 in Hlt. etransitivity; [|apply Hlt]; [lia| |apply elem_of_seqZ; lia|].
  - intros p Hp. apply elem_of_seqZ in Hp.
    pose proof (empty_fields_range (board_at s p)).
    pose proof (misses_left_cases _ (Inv2_miss _ HI2 p ltac:(lia))). lia.
  - pose proof (empty_fields_range (board_at s 0)).
    pose proof (misses_left_cases _ (Inv2_miss _ HI2 0 ltac:(lia))).
    pose proof (proj1 (IsTerminal_false s) Hlive 0 ltac:(lia)). lia.
Qed.

Lemma Play_reachable (n : Z) (s : QwintoState) (t m : nat) :
  1 <= n -> Play (NewInitialState n) t m s -> reachable n s.
Proof. intros Hn Hplay. split; [exact Hn|apply (Play_rtc _ _ t m Hplay)]. Qed.

(** The counts of a play from the first state. *)
Lemma Play_counts (n : Z) (s : QwintoState) (t m : nat) :
  1 <= n -> Play (NewInitialState n) t m s ->
  Z.of_nat t + turns_left s <= 31 * n /\
  Z.of_nat m <= (Z.max 1 kDefaultNumDiceRolls + 1) * Z.of_nat t + decisions s /\
  current_player_ s = Z.of_nat t mod n.
Proof.
  intros Hn Hplay.
  destruct (Play_measures n _ _ _ _ Hplay (Inv_init n Hn) (Inv2_init n Hn))
    as (Ht & Hm & Hc).
  rewrite turns_left_init in Ht by exact Hn.
  change (decisions (NewInitialState n)) with 0 in Hm.
  change (current_player_ (NewInitialState n)) with 0 in Hc.
  rewrite Z.add_0_r in Hm. rewrite Z.add_0_l in Hc.
  split; [exact Ht|]. split; [exact Hm|exact Hc].
Qed.

(** X11: a game of [n] players has at most [31 * n] turns: every legal
    play from the first state has at most that many joint actions. *)
Theorem game_turns_bound (n : Z) (s : QwintoState) (t m : nat) :
  1 <= n -> Play (NewInitialState n) t m s -> Z.of_nat t <= 31 * n.
Proof.
  intros Hn Hplay. destruct (Play_counts n s t m Hn Hplay) as (Ht & _ & _).
  pose proof (turns_left_nonneg s (reachable_Inv2 n s (Play_reachable n s t m Hn Hplay))).
  lia.
Qed.

(** X12: the length of a game is bounded: with at most [r] rolls in a
    turn, [r] at least 1, every legal play from the first state has at most
    [(r + 2) * 31 * n] actions of players, joint actions included, and
    [MaxGameLength] for each player when the dice are rolled once. *)
Theorem game_length_bound (n : Z) (s : QwintoState) (t m : nat) :
  1 <= n -> Play (NewInitialState n) t m s ->
  Z.of_nat t + Z.of_nat m <= (Z.max 1 kDefaultNumDiceRolls + 2) * 31 * n /\
  (kDefaultNumDiceRolls <= 1 -> Z.of_nat t + Z.of_nat m <= MaxGameLength * n).
Proof.
  intros Hn Hplay. destruct (Play_counts n s t m Hn Hplay) as (Ht & Hm & _).
  pose proof (Play_reachable n s t m Hn Hplay) as Hreach.
  pose proof (reachable_Inv n s Hreach) as HI.
  pose proof (reachable_Inv2 n s Hreach) as HI2.
  pose proof (turns_left_nonneg s HI2) as Hleft.
  pose proof (Inv2_rolls _ HI2) as Hrolls.
  assert (Hbound : Z.of_nat t + Z.of_nat m
                   <= (Z.max 1 kDefaultNumDiceRolls + 2) * (31 * n)).
  { set (r := Z.max 1 kDefaultNumDiceRolls) in *.
    assert (Hr : 1 <= r) by (unfold r; lia).
    destruct (IsTerminal s) eqn:Hterm.
    - pose proof (Inv2_end _ HI2 Hterm) as Hphase.
      unfold decisions in Hm. rewrite Hphase in Hm.
      assert ((r + 2) * Z.of_nat t <= (r + 2) * (31 * n))
        by (apply Z.mul_le_mono_nonneg_l; lia).
      lia.
    - pose proof (turns_left_live n s HI HI2 Hterm).
      assert (decisions s <= r + 1) by (unfold decisions; destruct (phase_ s); lia).
      assert ((r + 2) * Z.of_nat t <= (r + 2) * (31 * n - 1))
        by (apply Z.mul_le_mono_nonneg_l; lia).
      lia. }
  split; [lia|]. intros Hone. unfold MaxGameLength.
  replace (Z.max 1 kDefaultNumDiceRolls) with 1 in Hbound by lia. lia.
Qed.

(** X13: the players take turns: after [t] joint actions the current
    player is player [t mod n]. *)
Theorem players_take_turns (n : Z) (s : QwintoState) (t m : nat) :
  1 <= n -> Play (NewInitialState n) t m s ->
  current_player_ s = Z.of_nat t mod n.
Proof. intros Hn Hplay. apply (Play_counts n s t m Hn Hplay). Qed.

(** [tally] counts a play. *)
Lemma tally_Play (ms : list move) :
  forall s s' t m,
    play s ms = Ok s' -> tally s ms = Ok (t, m) -> Play s t m s'.
Proof.
  induction ms as [|mv ms IH]; intros s s' t m Hplay Htally; simpl in *.
  - inversion Hplay; inversion Htally; subst. apply play_done.
  - destruct (play1 s mv) as [s1| |] eqn:Hmove; simpl in *; try discriminate.
    destruct (tally s1 ms) as [[t1 m1]| |] eqn:Hrest; simpl in *; try discriminate.
    pose proof (play1_Step s s1 mv Hmove) as Hstep.
    specialize (IH s1 s' t1 m1 Hplay Hrest).
    destruct (IsSimultaneousNode s) eqn:Hsim.
    + inversion Htally; subst. apply (play_joint s s1); assumption.
    + destruct (IsChanceNode s) eqn:Hchance; inversion Htally; subst.
      * apply (play_chance s s1); assumption.
      * apply (play_single s s1); assumption.
Qed.

(** ** The layout of the observation tensor *)

Lemma vget_app_l (v w : list Z) (i : Z) :
  0 <= i < Z.of_nat (length v) -> vget (v ++ w) i = vget v i.
Proof. intros Hi. unfold vget. apply lookup_total_app_l. lia. Qed.

Lemma vget_app_r (v w : list Z) (i : Z) :
  Z.of_nat (length v) <= i -> vget (v ++ w) i = vget w (i - Z.of_nat (length v)).
Proof.
  intros Hi. unfold vget. rewrite lookup_total_app_r by lia. f_equal. lia.
Qed.

Lemma vget_map_seqZ (f : Z -> Z) (m len i : Z) :
  0 <= i < len -> vget (map f (seqZ m len)) i = f (m + i).
Proof.
  intros Hi. unfold vget. apply list_lookup_total_correct.
  change (map f (seqZ m len)) with (f <$> seqZ m len).
  rewrite list_lookup_fmap, lookup_seqZ_lt by lia. simpl. rewrite Z2Nat.id by lia.
  reflexivity.
Qed.

Lemma ObservationTensor_Ok (n : Z) (s : QwintoState) (player : Z) :
  Inv n s -> 0 <= player < n -> 0 <= kDefaultNumDiceRolls ->
  ObservationTensor s player = Ok (observation_values s).
Proof.
  intros HI Hp Hrolls.
  pose proof (Inv_players _ _ HI) as Hn. pose proof (Inv_length _ _ HI) as Hlen.
  unfold ObservationTensor.
  rewrite (SPIEL_CHECK_true (0 <=? player)) by (apply Z.leb_le; lia).
  rewrite (SPIEL_CHECK_true (player <? num_players_ s)) by (apply Z.ltb_lt; lia).
  cbn [rbind]. rewrite SPIEL_CHECK_true; [reflexivity|].
  apply Z.eqb_eq. unfold observation_values, ObservationTensorSize, ObservationTensorShape.
  rewrite !length_app, !length_map, !length_seqZ, Hn. simpl length. simpl foldr.
  sizes. lia.
Qed.

(** Goes to the block of an index of the tensor. *)
Ltac block :=
  repeat (rewrite vget_app_r
            by (rewrite ?length_map, ?length_seqZ; simpl length; lia));
  rewrite ?length_map, ?length_seqZ; simpl length;
  try (rewrite vget_app_l by (rewrite ?length_map, ?length_seqZ; simpl length; lia)).

Ltac at_index k :=
  match goal with
  | |- vget _ ?i = _ => replace i with k by lia
  end.

(** X14: the layout of the observation tensor: 3 values for the phase,
    one for each number of rolls below the limit, the three bits of the
    dice, 18 values for the outcome, one value for each player that marks
    the current player, and the boards cell by cell, for every observing
    player the same. *)
Theorem ObservationTensor_layout (n : Z) (s : QwintoState) (player : Z) :
  reachable n s -> 0 <= player < n -> 0 <= kDefaultNumDiceRolls ->
  exists values, ObservationTensor s player = Ok values /\
    vget values 0 = b2z (Phase_eqb (phase_ s) kSelectDice) /\
    vget values 1 = b2z (Phase_eqb (phase_ s) kRollDice) /\
    vget values 2 = b2z (Phase_eqb (phase_ s) kSubmitPoints) /\
    (forall r, 0 <= r < kDefaultNumDiceRolls ->
       vget values (3 + r) = b2z (r =? num_dice_rolls_ s)) /\
    vget values (3 + kDefaultNumDiceRolls) = Z.land (dice_ s) kOrange /\
    vget values (4 + kDefaultNumDiceRolls) = Z.land (dice_ s) kYellow /\
    vget values (5 + kDefaultNumDiceRolls) = Z.land (dice_ s) kPurple /\
    (forall k, 1 <= k <= 18 ->
       vget values (5 + kDefaultNumDiceRolls + k) = b2z (k =? dice_outcome_ s)) /\
    (forall q, 0 <= q < n ->
       vget values (24 + kDefaultNumDiceRolls + q) = b2z (q =? current_player_ s)) /\
    (forall p i, 0 <= p < n -> 0 <= i < kBoardSize ->
       vget values (24 + kDefaultNumDiceRolls + n + p * kBoardSize + i) = board_at s p i).
Proof.
  intros Hreach Hp Hrolls. pose proof (reachable_Inv n s Hreach) as HI.
  pose proof (Inv_players _ _ HI) as Hn. pose proof (Inv_length _ _ HI) as Hlen.
  exists (observation_values s).
  split; [apply (ObservationTensor_Ok n s player HI Hp Hrolls)|].
  unfold observation_values. rewrite Hn.
  repeat split.
  - intros r Hr. block. rewrite vget_map_seqZ by lia. f_equal. f_equal. lia.
  - block. at_index 0. reflexivity.
  - block. at_index 1. reflexivity.
  - block. at_index 2. reflexivity.
  - intros k Hk. block. rewrite vget_map_seqZ by lia. f_equal. f_equal. lia.
  - intros q Hq. block. rewrite vget_map_seqZ by lia. f_equal. f_equal. lia.
  - intros p i Hp' Hi. unfold board_at. sizes. block. f_equal. lia.
Qed.

(** ** The names of the actions *)

(** X15: every action that [LegalActions] returns for the player of a
    decision or of chance has a name, and two such actions with the same
    name are the same action. *)
Theorem legal_actions_have_names (FlatJointActionToString : QwintoState -> Z -> string)
    (s : QwintoState) (player a a' : Z) :
  player <> kSimultaneousPlayerId ->
  legal_action s player a -> legal_action s player a' ->
  exists name name',
    ActionToString FlatJointActionToString s player a = Ok name /\
    ActionToString FlatJointActionToString s player a' = Ok name' /\
    (name = name' -> a = a').
Proof.
  intros Hnsim Hlegal Hlegal'. unfold ActionToString.
  apply Z.eqb_neq in Hnsim. rewrite Hnsim.
  destruct (Z.eqb_spec player kChancePlayerId) as [->|Hnchance].
  - assert (Hrange : forall x, legal_action s kChancePlayerId x -> 1 <= x <= 18).
    { intros x (l & Hl & Hx). unfold LegalActions, LegalChanceOutcomes in Hl.
      simpl in Hl. inv_ok Hl. inversion Hl; subst l.
      apply (ChanceOutcomes_support s _ x Hrun Hx). }
    pose proof (Hrange a Hlegal). pose proof (Hrange a' Hlegal').
    rewrite !(SPIEL_CHECK_true (1 <=? _)) by (apply Z.leb_le; lia).
    rewrite !(SPIEL_CHECK_true (_ <=? 18)) by (apply Z.leb_le; lia).
    cbn [rbind]. do 2 eexists. split; [reflexivity|]. split; [reflexivity|].
    intros Heq. apply (inj (String.app _)) in Heq. apply (inj pretty) in Heq. exact Heq.
  - destruct (phase_ s); do 2 eexists; (split; [reflexivity|]);
      (split; [reflexivity|]); intros Heq;
      repeat apply (inj (String.app _)) in Heq; apply (inj pretty) in Heq; exact Heq.
Qed.

Lemma phase2str_inj (p p' : Phase) : phase2str p = phase2str p' -> p = p'.
Proof. destruct p, p'; simpl; intros Heq; try reflexivity; discriminate. Qed.

(** X16: the seven selections of dice that [LegalActions] offers have
    seven different names. *)
Theorem dice2str_distinguishes (d d' : Z) :
  1 <= d <= 7 -> 1 <= d' <= 7 -> d <> d' -> dice2str d <> dice2str d'.
Proof.
  intros Hd Hd' Hne.
  assert (Hcases : d ∈ seqZ 1 7) by (apply elem_of_seqZ; lia).
  assert (Hcases' : d' ∈ seqZ 1 7) by (apply elem_of_seqZ; lia).
  clear Hd Hd'. clear_parameters.
  repeat (apply elem_of_cons in Hcases as [->|Hcases]); [..|inversion Hcases];
    repeat (apply elem_of_cons in Hcases' as [->|Hcases']);
    try (inversion Hcases'; fail); try contradiction; vm_compute; discriminate.
Qed.

End Qwinto.

(** * The games above, played *)

Lemma orange_three_played (n : Z) :
  n = 1 \/ n = 2 ->
  play skip28 two_rolls one_flat_action no_actions (NewInitialState n) orange_three
  = Ok (orange_three_state n).
Proof. intros [->| ->]; vm_compute; reflexivity. Defined.

Lemma three_fields_played :
  play skip28 two_rolls one_flat_action no_actions (NewInitialState 1) three_fields
  = Ok three_fields_state.
Proof. vm_compute. reflexivity. Defined.

Lemma whole_game_played :
  play skip28 two_rolls one_flat_action no_actions (NewInitialState 1) whole_game
  = Ok end_state.
Proof. vm_compute. reflexivity. Defined.

Lemma orange_three_reachable (n : Z) :
  n = 1 \/ n = 2 ->
  reachable skip28 two_rolls one_flat_action no_actions n (orange_three_state n).
Proof.
  intros Hn. apply (play_reachable _ _ _ _ n orange_three); [lia|].
  apply orange_three_played, Hn.
Defined.

Lemma three_fields_reachable :
  reachable skip28 two_rolls one_flat_action no_actions 1 three_fields_state.
Proof.
  apply (play_reachable _ _ _ _ 1 three_fields); [lia|apply three_fields_played].
Defined.

Lemma end_state_reachable :
  reachable skip28 two_rolls one_flat_action no_actions 1 end_state.
Proof.
  apply (play_reachable _ _ _ _ 1 whole_game); [lia|apply whole_game_played].
Defined.

(** C1, as stated, fails: the orange die shows 3, player 0 is the current
    player, and player 1 submits field 9, a field of the yellow row.  The
    action is not legal for player 1, and [DoApplyActions] writes it. *)
Lemma DoApplyActions_writes_illegal_field :
  legal_actionb skip28 two_rolls one_flat_action (orange_three_state 2) 1 9 = false /\
  (s' <- DoApplyActions skip28 (orange_three_state 2) [27; 9] ;; Ok (board_at s' 1 9))
  = Ok 3.
Proof. split; vm_compute; reflexivity. Qed.

Lemma DoApplyActions_checks_witness :
  DoApplyActions skip28 (orange_three_state 2) [27] = Fatal /\
  exists s', DoApplyActions skip28 (orange_three_state 2) [27; -1] = Ok s' /\
    length (scores_ s') = length (scores_ (orange_three_state 2)) /\
    forall j, 0 <= j ->
      vget (scores_ s') j
      = flat_after skip28 3 0 [27; -1] j (vget (scores_ (orange_three_state 2)) j).
Proof.
  split.
  - apply (proj1 (DoApplyActions_checks skip28 (orange_three_state 2) [27])).
    vm_compute. discriminate.
  - apply (proj2 (proj2 (proj2 (DoApplyActions_checks skip28 (orange_three_state 2)
                                  [27; -1]))
                    eq_refl eq_refl
                    ltac:(intros [|[|p]] a Hp _; inversion Hp; vm_compute;
                          split; (discriminate || reflexivity))
                    ltac:(apply (bool_decide_unpack _); vm_compute; exact I))).
    reflexivity.
Defined.

(** An action outside the board is written all the same: player 1
    submits -1, and the outcome lands in cell 1 * 28 - 1 of the vector, the
    miss slot of player 0, over the penalty that player 0 just took. *)
Example write_outside_the_board :
  (s' <- DoApplyActions skip28 (orange_three_state 2) [27; -1] ;;
   Ok (board_at s' 0 27, flat_after skip28 3 0 [27; -1] 27 0, board_at s' 1 27))
  = Ok (3, 3, 0).
Proof. vm_compute. reflexivity. Qed.

(** C2, as stated, fails: the orange die shows 3 and the orange row is
    empty; field 1 is legal, and field 0 to its left is not filled. *)
Lemma open_field_after_empty_field :
  legal_actionb skip28 two_rolls one_flat_action (orange_three_state 1) 0 1 = true /\
  left_filled_and_smaller (orange_three_state 1) 0 1 = false /\
  right_empty_or_larger (orange_three_state 1) 0 1 = true.
Proof. repeat split; vm_compute; reflexivity. Qed.

Lemma open_field_order_witness :
  (forall k, 0 <= k < 1 -> k / 9 = 1 / 9 ->
     board_at (orange_three_state 1) 0 k < dice_outcome_ (orange_three_state 1)) /\
  (forall k, 1 < k < 27 -> k / 9 = 1 / 9 ->
     board_at (orange_three_state 1) 0 k = 0 \/
     dice_outcome_ (orange_three_state 1) < board_at (orange_three_state 1) 0 k).
Proof.
  apply (open_field_order skip28 two_rolls one_flat_action (orange_three_state 1) 0 1).
  - reflexivity.
  - lia.
  - vm_compute. split; [discriminate|reflexivity].
  - discriminate.
  - apply legal_actionb_true. vm_compute. reflexivity.
Defined.



Lemma rows_strictly_increasing_witness :
  nonzero_values (row_values three_fields_state 0 0) = [10; 14] /\
  StronglySorted Z.lt (nonzero_values (row_values three_fields_state 0 0)).
Proof.
  split; [vm_compute; reflexivity|].
  apply (rows_strictly_increasing skip28 two_rolls one_flat_action no_actions 1
           three_fields_state 0 0 three_fields_reachable).
  - lia.
  - vm_compute. split; [discriminate|reflexivity].
Defined.

Lemma paired_cells_differ_witness :
  board_at three_fields_state 0 0 = 10 /\ board_at three_fields_state 0 10 = 12 /\
  board_at three_fields_state 0 0 <> board_at three_fields_state 0 10.
Proof.
  split; [reflexivity|]. split; [reflexivity|].
  apply (paired_cells_differ skip28 two_rolls one_flat_action no_actions 1
           three_fields_state 0 0 10 three_fields_reachable).
  - lia.
  - vm_compute. split; [discriminate|reflexivity].
  - apply (bool_decide_unpack _). vm_compute. exact I.
  - vm_compute. discriminate.
Defined.

Lemma Returns_board_scores_witness :
  IsTerminal end_state = true /\ Returns end_state = [-17] /\
  forall p, 0 <= p < 1 -> board_at end_state p 27 <= 0.
Proof.
  split; [reflexivity|].
  destruct (Returns_board_scores skip28 two_rolls one_flat_action no_actions 1
              end_state end_state_reachable) as [Hreturns Hmiss].
  split; [|exact Hmiss]. rewrite Hreturns. vm_compute. reflexivity.
Defined.

Lemma terminal_stays_terminal_witness :
  IsTerminal end_state = true /\ IsTerminal after_end_state = true.
Proof.
  split; [reflexivity|].
  apply (terminal_stays_terminal skip28 two_rolls no_actions end_state after_end_state).
  - reflexivity.
  - apply (applied_single skip28 two_rolls no_actions end_state 1); reflexivity.
Defined.

Lemma DoApplyActions_frame_witness :
  exists s', DoApplyActions skip28 (orange_three_state 2) [0; 28] = Ok s' /\
    phase_ s' = kSelectDice /\
    current_player_ s' = (0 + 1) mod 2 /\
    player_ s' = current_player_ s' /\
    forall (p : nat) a i, [0; 28] !! p = Some a -> 0 <= i < kBoardSize ->
      board_at s' (Z.of_nat p) i
      = submitted skip28 3 a i (board_at (orange_three_state 2) (Z.of_nat p) i).
Proof.
  apply (DoApplyActions_frame skip28 two_rolls one_flat_action no_actions 2
           (orange_three_state 2) [0; 28] (orange_three_reachable 2 (or_intror eq_refl))).
  - reflexivity.
  - split; [reflexivity|]. intros p a Hp.
    apply (all_legal_true skip28 two_rolls one_flat_action (orange_three_state 2)
             [0; 28] 0 eq_refl p a Hp).
  - right. reflexivity.
Defined.



Lemma ObservationTensor_length_witness :
  exists values, ObservationTensor two_rolls three_fields_state 0 = Ok values /\
    Z.of_nat (length values) = 3 + two_rolls + 3 + 18 + 1 + 1 * (kDefaultNumDice * kDefaultNumFields + 1) /\
    Z.of_nat (length values) = ObservationTensorSize two_rolls 1.
Proof.
  apply (ObservationTensor_length skip28 two_rolls one_flat_action no_actions 1
           three_fields_state 0 three_fields_reachable).
  - lia.
  - vm_compute. discriminate.
Defined.

(** * More of the code, on the games above *)

Lemma whole_game_Play :
  Play skip28 1 one_flat_action no_actions (NewInitialState 1) 7 14 end_state.
Proof.
  apply (tally_Play skip28 1 one_flat_action no_actions whole_game);
    vm_compute; reflexivity.
Defined.

Lemma legal_single_action_applies_witness :
  exists s', DoApplyAction skip28 two_rolls no_actions three_fields_state 10 = Ok s' /\
    scores_ s' = scores_ three_fields_state.
Proof.
  apply (legal_single_action_applies skip28 two_rolls one_flat_action no_actions 1
           three_fields_state 10 three_fields_reachable).
  - vm_compute. discriminate.
  - apply legal_actionb_true. vm_compute. reflexivity.
Defined.

Lemma game_never_stuck_witness :
  exists s', Step skip28 two_rolls one_flat_action no_actions (orange_three_state 2) s'.
Proof.
  apply (game_never_stuck skip28 two_rolls one_flat_action no_actions 2
           (orange_three_state 2) (orange_three_reachable 2 (or_intror eq_refl))).
  - reflexivity.
  - right. reflexivity.
Defined.

Lemma CurrentPlayer_by_phase_witness :
  0 <= current_player_ three_fields_state < 1 /\
  (IsTerminal three_fields_state = true ->
     phase_ three_fields_state = kSelectDice /\
     CurrentPlayer three_fields_state = kTerminalPlayerId) /\
  (IsTerminal three_fields_state = false ->
     CurrentPlayer three_fields_state = kChancePlayerId \/
     CurrentPlayer three_fields_state = current_player_ three_fields_state).
Proof.
  apply (CurrentPlayer_by_phase skip28 two_rolls one_flat_action no_actions 1
           three_fields_state three_fields_reachable).
Defined.

Lemma finished_game_is_final_witness :
  IsTerminal end_state = true /\ end_state = end_state.
Proof.
  split; [reflexivity|].
  apply (finished_game_is_final skip28 two_rolls one_flat_action no_actions
           end_state end_state).
  - reflexivity.
  - apply rtc_refl.
Defined.

Lemma fields_written_once_witness :
  exists s',
    play skip28 two_rolls one_flat_action no_actions three_fields_state
      [Single 3; Single 1; Joint [27]] = Ok s' /\
    (forall i, 0 <= i < kDefaultNumDice * kDefaultNumFields ->
       board_at three_fields_state 0 i <> 0 ->
       board_at s' 0 i = board_at three_fields_state 0 i) /\
    board_at s' 0 27 <= board_at three_fields_state 0 27.
Proof.
  eexists. split; [vm_compute; reflexivity|].
  apply (fields_written_once skip28 two_rolls one_flat_action no_actions 1
           three_fields_state _ 0 three_fields_reachable).
  - apply (play_Step skip28 two_rolls one_flat_action no_actions
             [Single 3; Single 1; Joint [27]]).
    vm_compute. reflexivity.
  - lia.
Defined.

Lemma board_values_witness :
  (forall i, 0 <= i < kDefaultNumDice * kDefaultNumFields ->
     0 <= board_at three_fields_state 0 i <= 18) /\
  board_at three_fields_state 0 (kDefaultNumDice * kDefaultNumFields)
  ∈ [0; -5; -10; -15; -20].
Proof.
  apply (board_values skip28 two_rolls one_flat_action no_actions 1
           three_fields_state 0 three_fields_reachable).
  lia.
Defined.

Lemma legal_actions_are_action_ids_witness :
  legal_actionb skip28 two_rolls one_flat_action (orange_three_state 2) 1 28 = true /\
  (28 = skip28 \/ 0 <= 28 < NumDistinctActions).
Proof.
  split; [vm_compute; reflexivity|].
  apply (legal_actions_are_action_ids skip28 two_rolls one_flat_action
           (orange_three_state 2) 1 28).
  - lia.
  - apply legal_actionb_true. vm_compute. reflexivity.
Defined.

Lemma legal_field_iff_witness :
  legal_action skip28 two_rolls one_flat_action (orange_three_state 1) 0 1 <->
  (Z.land (dice_ (orange_three_state 1)) (row_die (1 / 9)) <> 0 /\
   board_at (orange_three_state 1) 0 1 = 0 /\
   (forall k, 0 <= k < 1 -> k / 9 = 1 / 9 ->
      board_at (orange_three_state 1) 0 k < dice_outcome_ (orange_three_state 1)) /\
   (forall k, 1 < k < 27 -> k / 9 = 1 / 9 ->
      board_at (orange_three_state 1) 0 k = 0 \/
      dice_outcome_ (orange_three_state 1) < board_at (orange_three_state 1) 0 k) /\
   (forall d, d ∈ paired_cells 1 ->
      board_at (orange_three_state 1) 0 d <> dice_outcome_ (orange_three_state 1))).
Proof.
  apply (legal_field_iff skip28 two_rolls one_flat_action no_actions 1
           (orange_three_state 1) 0 1 (orange_three_reachable 1 (or_introl eq_refl))).
  - reflexivity.
  - lia.
  - vm_compute. split; [discriminate|reflexivity].
  - discriminate.
Defined.

Lemma Returns_within_utility_bounds_witness :
  Returns end_state = [-17] /\
  Forall (fun r => MinUtility <= r <= MaxUtility) (Returns end_state).
Proof.
  split; [vm_compute; reflexivity|].
  apply (Returns_within_utility_bounds skip28 two_rolls one_flat_action no_actions 1
           end_state end_state_reachable).
Defined.

Lemma game_turns_bound_witness : Z.of_nat 7 <= 31 * 1.
Proof.
  apply (game_turns_bound skip28 1 one_flat_action no_actions 1 end_state 7 14).
  - lia.
  - apply whole_game_Play.
Defined.

Lemma game_length_bound_witness :
  Z.of_nat 7 + Z.of_nat 14 <= (Z.max 1 1 + 2) * 31 * 1 /\
  (1 <= 1 -> Z.of_nat 7 + Z.of_nat 14 <= MaxGameLength * 1).
Proof.
  apply (game_length_bound skip28 1 one_flat_action no_actions 1 end_state 7 14).
  - lia.
  - apply whole_game_Play.
Defined.

Lemma players_take_turns_witness :
  exists s,
    play skip28 two_rolls one_flat_action no_actions (NewInitialState 2)
      [Single 1; Single 3; Single 1; Joint [27; 28]] = Ok s /\
    current_player_ s = Z.of_nat 1 mod 2.
Proof.
  eexists. split; [vm_compute; reflexivity|].
  apply (players_take_turns skip28 two_rolls one_flat_action no_actions 2 _ 1 2).
  - lia.
  - apply (tally_Play skip28 two_rolls one_flat_action no_actions
             [Single 1; Single 3; Single 1; Joint [27; 28]]);
      vm_compute; reflexivity.
Defined.

Lemma ObservationTensor_layout_witness :
  exists values, ObservationTensor two_rolls three_fields_state 0 = Ok values /\
    vget values 0 = b2z (Phase_eqb (phase_ three_fields_state) kSelectDice) /\
    vget values 1 = b2z (Phase_eqb (phase_ three_fields_state) kRollDice) /\
    vget values 2 = b2z (Phase_eqb (phase_ three_fields_state) kSubmitPoints) /\
    (forall r, 0 <= r < two_rolls ->
       vget values (3 + r) = b2z (r =? num_dice_rolls_ three_fields_state)) /\
    vget values (3 + two_rolls) = Z.land (dice_ three_fields_state) kOrange /\
    vget values (4 + two_rolls) = Z.land (dice_ three_fields_state) kYellow /\
    vget values (5 + two_rolls) = Z.land (dice_ three_fields_state) kPurple /\
    (forall k, 1 <= k <= 18 ->
       vget values (5 + two_rolls + k) = b2z (k =? dice_outcome_ three_fields_state)) /\
    (forall q, 0 <= q < 1 ->
       vget values (24 + two_rolls + q) = b2z (q =? current_player_ three_fields_state)) /\
    (forall p i, 0 <= p < 1 -> 0 <= i < kBoardSize ->
       vget values (24 + two_rolls + 1 + p * kBoardSize + i)
       = board_at three_fields_state p i).
Proof.
  apply (ObservationTensor_layout skip28 two_rolls one_flat_action no_actions 1
           three_fields_state 0 three_fields_reachable).
  - lia.
  - vm_compute. discriminate.
Defined.

Lemma legal_actions_have_names_witness :
  exists name name',
    ActionToString (fun _ _ => "joint") three_fields_state kChancePlayerId 3 = Ok name /\
    ActionToString (fun _ _ => "joint") three_fields_state kChancePlayerId 4 = Ok name' /\
    (name = name' -> 3 = 4).
Proof.
  apply (legal_actions_have_names skip28 two_rolls one_flat_action (fun _ _ => "joint")
           three_fields_state kChancePlayerId 3 4).
  - vm_compute. discriminate.
  - apply legal_actionb_true. vm_compute. reflexivity.
  - apply legal_actionb_true. vm_compute. reflexivity.
Defined.

Lemma dice2str_distinguishes_witness :
  dice2str 1 = "Orange, " /\ dice2str 3 = "Orange, Purple" /\ dice2str 1 <> dice2str 3.
Proof.
  split; [reflexivity|]. split; [reflexivity|].
  apply (dice2str_distinguishes 1 3); lia.
Defined.

(** * The scenarios of the specification *)

(** One player misses four times: the game is over and the return is the
    miss slot, -20. *)
Example four_misses_end :
  (s <- play skip28 two_rolls one_flat_action no_actions (NewInitialState 1) four_misses ;;
   Ok (IsTerminal s, board_at s 0 27, Returns s))
  = Ok (true, -20, [-20]).
Proof. vm_compute. reflexivity. Qed.

(** A full row counts for its last field, 18, and not for its 9 fields. *)
Example full_row_return :
  row_return (fun k => nth (Z.to_nat k) [2; 5; 7; 9; 11; 13; 14; 16; 18] 0) = 18 /\
  row_score [2; 5; 7; 9; 11; 13; 14; 16; 18] = 18 /\
  row_score [2; 5; 7; 9; 11; 13; 14; 16; 0] = 8.
Proof. repeat split; vm_compute; reflexivity. Qed.

(** Two players, two dice: 11 outcomes, of total probability 1 up to
    rounding, with 6/36. for the sum 7. *)
Example two_dice_outcomes :
  (s <- play skip28 two_rolls one_flat_action no_actions (NewInitialState 2) [Single 3] ;;
   outs <- ChanceOutcomes s ;;
   Ok (length outs, Qnearb 53 (Qsum (map (fun o => double_value (snd o)) outs)) 1,
       nth 5 outs (0, S754_zero false)))
  = Ok (11%nat, true, (7, 6 /. 36)).
Proof. vm_compute. reflexivity. Qed.

(** Three players, player 1 is the current player and misses, the others
    skip: the miss slot of player 1 is the only cell that changes, the
    phase is [kSelectDice] again and player 2 is next. *)
Example miss_and_skips :
  (s <- play skip28 two_rolls one_flat_action no_actions (NewInitialState 3)
          ([Single 1; Single 3; Single 1; Joint [27; 28; 28]] ++ orange_three) ;;
   s' <- DoApplyActions skip28 s [28; 27; 28] ;;
   Ok (current_player_ s,
       bool_decide (scores_ s' = <[Z.to_nat (1 * 28 + 27) := -5]> (scores_ s)),
       phase_ s', current_player_ s', player_ s'))
  = Ok (1, true, kSelectDice, 2, 2).
Proof. vm_compute. reflexivity. Qed.
